(** * Tic-Tac-Toe with a tabular learning agent

    A shallow embedding of [Module 1 (Week 2)/Tic_Tac_Toe.py]: the game
    engine [TicTacToeGame], the agent [SimpleAIAgent] and the self-play
    driver [train_agent], followed by the properties of the specification
    that were checked against them.

    Modelling conventions.
    - Python objects are records passed explicitly; a method takes the
      object and returns the object it leaves behind.
    - A Python [str] is a [string]; board cells are the strings the code
      writes (one blank, [X], [O]), a board is a [list string].
    - A Python [int] used as an index is a [Z] (negative indices wrap as in
      Python); visit counts, which start at 0 and are only incremented, are
      [nat].
    - A Python [float] is a rational [Q] in [Agent], whose theorems use the
      stored numbers only as table entries and through the comparisons of
      [choose_action]. The arithmetic of [learn] rounds: it is modelled a
      second time in [Binary64], operation for operation on IEEE 754
      doubles, and what is said about the numbers [learn] stores is said
      there. The initial running maximum [-float('inf')] is [None].
    - [defaultdict] is a [gmap] together with the default inserted on a
      missing key.
    - Exceptions are the [Raise] results of [outcome]; a [while] loop takes
      fuel and answers [NoFuel] when it is exhausted.
    - The global [random] module is a state of an abstract generator. *)

From Stdlib Require Import ZArith QArith Lqa List String Ascii Lia Bool Sorted.
From Stdlib Require PrimFloat SpecFloat FloatOps FloatAxioms.
From stdpp Require Import gmap strings list pretty.

#[local] Set Warnings "-abstract-large-number".

Local Open Scope string_scope.
Local Open Scope list_scope.
Local Open Scope Z_scope.

(** ** Results of Python code *)

Inductive exn : Type :=
| IndexError.

Inductive outcome (A : Type) : Type :=
| Ret (a : A)
| Raise (e : exn)
| NoFuel.

Arguments Ret {A} a.
Arguments Raise {A} e.
Arguments NoFuel {A}.

(** Sequencing: [let* x := m in k] runs [m] and, unless it raised,
    continues with [k]. *)
Definition bind {A B : Type} (m : outcome A) (k : A -> outcome B) : outcome B :=
  match m with
  | Ret a => k a
  | Raise e => Raise e
  | NoFuel => NoFuel
  end.

Notation "'let*' x ':=' m 'in' k" := (bind m (fun x => k))
  (at level 10, x pattern, m at level 100, k at level 200).

(** ** Python lists *)

(** The position a Python index [i] denotes in a list of length [len]. *)
Definition py_index (len : nat) (i : Z) : outcome nat :=
  if (0 <=? i) && (i <? Z.of_nat len) then Ret (Z.to_nat i)
  else if (- Z.of_nat len <=? i) && (i <? 0) then Ret (Z.to_nat (i + Z.of_nat len))
  else Raise IndexError.

(** [l[i]] *)
Definition getitem {A : Type} (l : list A) (i : Z) : outcome A :=
  let* n := py_index (length l) i in
  match l !! n with
  | Some x => Ret x
  | None => Raise IndexError
  end.

(** [l[i] = x] *)
Definition setitem {A : Type} (l : list A) (i : Z) (x : A) : outcome (list A) :=
  let* n := py_index (length l) i in
  Ret (<[n := x]> l).

(** [enumerate(l)], counting from [i]. *)
Fixpoint enumerate_from {A : Type} (i : Z) (l : list A) : list (Z * A) :=
  match l with
  | [] => []
  | x :: l' => (i, x) :: enumerate_from (i + 1) l'
  end.

Definition enumerate {A : Type} (l : list A) : list (Z * A) := enumerate_from 0 l.

(** [x in l] on integers. *)
Definition py_in (x : Z) (l : list Z) : bool := existsb (Z.eqb x) l.

(** ** The game engine *)

Module Game.

Definition EMPTY : string := " ".
Definition MARK_X : string := "X".
Definition MARK_O : string := "O".

Record TicTacToeGame : Type := mkGame {
  board : list string;
  current_player : string;
  winner : option string;
  game_over : bool
}.

(** [''.join(self.board)] *)
Definition get_state (self : TicTacToeGame) : string :=
  String.concat "" (board self).

(** [reset]: every field is overwritten, the key of the new board returned. *)
Definition reset (self : TicTacToeGame) : string * TicTacToeGame :=
  let self := mkGame (map (fun _ => EMPTY) (seq 0 9)) MARK_X None false in
  (get_state self, self).

(** [__init__] only calls [reset]. *)
Definition init : TicTacToeGame :=
  snd (reset (mkGame [] "" None false)).

(** [[i for i, spot in enumerate(self.board) if spot == ' ']] *)
Definition available_moves (self : TicTacToeGame) : list Z :=
  map fst (List.filter (fun p => String.eqb (snd p) EMPTY) (enumerate (board self))).

(** The chained comparison [b[i] == b[j] == b[k] == player]: operands are
    read left to right and reading stops at the first failed equality. *)
Definition line_eq (self : TicTacToeGame) (player : string) (l : Z * Z * Z) : outcome bool :=
  let '(i, j, k) := l in
  let* a := getitem (board self) i in
  let* b := getitem (board self) j in
  if negb (String.eqb a b) then Ret false else
  let* c := getitem (board self) k in
  if negb (String.eqb b c) then Ret false else
  Ret (String.eqb c player).

(** A [for] loop over lines that returns [True] at the first full line. *)
Fixpoint first_line (self : TicTacToeGame) (player : string) (ls : list (Z * Z * Z)) : outcome bool :=
  match ls with
  | [] => Ret false
  | l :: ls' =>
      let* r := line_eq self player l in
      if r then Ret true else first_line self player ls'
  end.

Definition check_win (self : TicTacToeGame) (player : string) : outcome bool :=
  let* rows := first_line self player (map (fun i => (i, i + 1, i + 2)) [0; 3; 6]) in
  if rows then Ret true else
  let* cols := first_line self player (map (fun i => (i, i + 3, i + 6)) [0; 1; 2]) in
  if cols then Ret true else
  let* d1 := line_eq self player (0, 4, 8) in
  if d1 then Ret true else
  let* d2 := line_eq self player (2, 4, 6) in
  if d2 then Ret true else
  Ret false.

(** [' ' not in self.board and self.winner is None] *)
Definition check_tie (self : TicTacToeGame) : bool :=
  negb (existsb (String.eqb EMPTY) (board self)) &&
  match winner self with None => true | Some _ => false end.

Definition make_move (self : TicTacToeGame) (position : Z) (player : option string)
  : outcome (bool * TicTacToeGame) :=
  let player := match player with None => current_player self | Some p => p end in
  if negb (py_in position (available_moves self)) then Ret (false, self) else
  let* b := setitem (board self) position player in
  let self := mkGame b (current_player self) (winner self) (game_over self) in
  let* won := check_win self player in
  if won then
    Ret (true, mkGame (board self) (current_player self) (Some player) true)
  else if check_tie self then
    Ret (true, mkGame (board self) (current_player self) (winner self) true)
  else
    Ret (true, mkGame (board self)
                 (if String.eqb (current_player self) MARK_X then MARK_O else MARK_X)
                 (winner self) (game_over self)).

End Game.

Import Game.

(** ** The [random] module *)

(** A generator state [R] with the two draws the program makes:
    [random.random()] and the index that [random.choice] draws, which the
    library takes below the length of the sequence. *)
Class RandomSource (R : Type) : Type := {
  random : R -> Q * R;
  randbelow : nat -> R -> nat * R;
  randbelow_lt : forall n s, (0 < n)%nat -> (fst (randbelow n s) < n)%nat
}.

(** [random.choice(seq)]: [IndexError] on an empty sequence. *)
Definition choice {R : Type} `{RandomSource R} {A : Type} (seq : list A) (s : R)
  : outcome (A * R) :=
  match seq with
  | [] => Raise IndexError
  | _ :: _ =>
      let (i, s) := randbelow (length seq) s in
      let* x := getitem seq (Z.of_nat i) in
      Ret (x, s)
  end.

(** ** The learning agent *)

(** [d[k]] on a [defaultdict]: a missing key is inserted with the default. *)
Definition dd_getitem {V : Type} (default : V) (d : gmap string V) (k : string)
  : V * gmap string V :=
  match d !! k with
  | Some v => (v, d)
  | None => (default, <[k := default]> d)
  end.

(** [x < y] on rationals. *)
Definition Qltb (x y : Q) : bool := (Qnum x * QDen y <? Qnum y * QDen x)%Z.

Module Agent.

Record SimpleAIAgent : Type := mkAgent {
  epsilon : Q;
  state_values : gmap string Q;
  state_visits : gmap string nat
}.

(** [SimpleAIAgent(epsilon)] *)
Definition init (epsilon : Q) : SimpleAIAgent := mkAgent epsilon ∅ ∅.

(** [value > best_value], where [None] is minus infinity. *)
Definition gt_best (value : Q) (best_value : option Q) : bool :=
  match best_value with
  | None => true
  | Some b => Qltb b value
  end.

(** [value == best_value] *)
Definition eq_best (value : Q) (best_value : option Q) : bool :=
  match best_value with
  | None => false
  | Some b => Qeq_bool value b
  end.

(** The exploitation loop [for move in available], on the state
    [(best_value, best_moves)] and the value table. *)
Fixpoint scan (game : TicTacToeGame) (player : string) (moves : list Z)
    (values : gmap string Q) (best_value : option Q) (best_moves : list Z)
  : outcome (option Q * list Z * gmap string Q) :=
  match moves with
  | [] => Ret (best_value, best_moves, values)
  | move :: moves' =>
      let board_copy := board game in
      let* board_copy := setitem board_copy move player in
      let next_state := String.concat "" board_copy in
      let (value, values) := dd_getitem 0%Q values next_state in
      if gt_best value best_value then
        scan game player moves' values (Some value) [move]
      else if eq_best value best_value then
        scan game player moves' values best_value (best_moves ++ [move])
      else
        scan game player moves' values best_value best_moves
  end.

Section WithRandom.
Context {R : Type} `{RandomSource R}.

Definition choose_action (self : SimpleAIAgent) (game : TicTacToeGame) (player : string)
    (s : R) : outcome (Z * SimpleAIAgent * R) :=
  let available := available_moves game in
  let (u, s) := random s in
  if Qltb u (epsilon self) then
    let* (move, s) := choice available s in
    Ret (move, self, s)
  else
    let* (best, values) := scan game player available (state_values self) None [] in
    let (best_value, best_moves) := best : option Q * list Z in
    let self := mkAgent (epsilon self) values (state_visits self) in
    if match best_moves with [] => true | _ => false end then
      let* (move, s) := choice available s in
      Ret (move, self, s)
    else
      let* (move, s) := choice best_moves s in
      Ret (move, self, s).

End WithRandom.

(** One iteration of [learn]'s loop. The keys and the counts are those of
    the code; the number stored is the rational the formula denotes,
    which the code rounds (see [Binary64.learn_step]). *)
Definition learn_step (reward : Q) (self : SimpleAIAgent) (state : string) : SimpleAIAgent :=
  (* self.state_visits[state] += 1 *)
  let (n, visits) := dd_getitem 0%nat (state_visits self) state in
  let visits := <[state := (n + 1)%nat]> visits in
  (* self.state_values[state] += (reward - self.state_values[state]) / self.state_visits[state] *)
  let (v0, values) := dd_getitem 0%Q (state_values self) state in
  let (v1, values) := dd_getitem 0%Q values state in
  let (c, visits) := dd_getitem 0%nat visits state in
  let values := <[state := (v0 + (reward - v1) / inject_Z (Z.of_nat c))%Q]> values in
  mkAgent (epsilon self) values visits.

Definition learn (self : SimpleAIAgent) (state_history : list string) (reward : Q)
  : SimpleAIAgent :=
  fold_left (learn_step reward) state_history self.

End Agent.

Import Agent.

(** ** The arithmetic of [learn] on doubles

    The agent once more, its numbers being the doubles of the machine:
    [+], [-] and [/] are the IEEE 754 binary64 operations, rounding to
    nearest with ties to even, and the visit count is converted to the
    nearest double before the division, as Python's [float / int] does. *)

Module Binary64.
Import PrimFloat SpecFloat FloatOps.

(** The count as the division receives it: the double nearest to [n],
    ties to even. (Python raises [OverflowError] for an integer beyond the
    largest double, about 1.8e308; no count gets there, and the model
    answers infinity.) *)
Definition float_of_count (n : nat) : float :=
  SF2Prim (binary_normalize prec emax (Z.of_nat n) 0 false).

Record SimpleAIAgent : Type := mkAgent {
  epsilon : float;
  state_values : gmap string float;
  state_visits : gmap string nat
}.

(** [SimpleAIAgent(epsilon)] *)
Definition init (epsilon : float) : SimpleAIAgent := mkAgent epsilon ∅ ∅.

(** One iteration of [learn]'s loop. *)
Definition learn_step (reward : float) (self : SimpleAIAgent) (state : string)
  : SimpleAIAgent :=
  (* self.state_visits[state] += 1 *)
  let (n, visits) := dd_getitem 0%nat (state_visits self) state in
  let visits := <[state := (n + 1)%nat]> visits in
  (* self.state_values[state] += (reward - self.state_values[state]) / self.state_visits[state] *)
  let (v0, values) := dd_getitem 0%float (state_values self) state in
  let (v1, values) := dd_getitem 0%float values state in
  let (c, visits) := dd_getitem 0%nat visits state in
  let values := <[state := (v0 + (reward - v1) / float_of_count c)%float]> values in
  mkAgent (epsilon self) values visits.

Definition learn (self : SimpleAIAgent) (state_history : list string)
    (reward : float) : SimpleAIAgent :=
  fold_left (learn_step reward) state_history self.

(** The value and the visit count held for a key, absent keys read at
    their defaults. *)
Definition value_of (a : SimpleAIAgent) (k : string) : float :=
  default 0%float (state_values a !! k).

Definition visits_of (a : SimpleAIAgent) (k : string) : nat :=
  default 0%nat (state_visits a !! k).

End Binary64.

(** ** The exploitation loop over list objects

    [choose_action] is the one place where a list is copied and the copy
    written to. Here the lists are objects in a store, the session's board
    is a reference, [.copy()] allocates a new object and the assignment
    [board_copy[move] = player] updates the object it is given. *)

Module Store.

Abbreviation store := (gmap nat (list string)).

(** A new list object. *)
Definition list_new (h : store) (items : list string) : nat * store :=
  let r := fresh (dom h) in (r, <[r := items]> h).

(** [l.copy()] *)
Definition list_copy (h : store) (r : nat) : nat * store :=
  list_new h (h !!! r).

(** [l[i] = x] *)
Definition list_setitem (h : store) (r : nat) (i : Z) (x : string) : outcome store :=
  let* items := setitem (h !!! r) i x in
  Ret (<[r := items]> h).

(** [''.join(l)] *)
Definition list_join (h : store) (r : nat) : string :=
  String.concat "" (h !!! r).

Fixpoint scan (h : store) (board_ref : nat) (player : string) (moves : list Z)
    (values : gmap string Q) (best_value : option Q) (best_moves : list Z)
  : outcome (option Q * list Z * gmap string Q * store) :=
  match moves with
  | [] => Ret (best_value, best_moves, values, h)
  | move :: moves' =>
      let (board_copy, h) := list_copy h board_ref in
      let* h := list_setitem h board_copy move player in
      let next_state := list_join h board_copy in
      let (value, values) := dd_getitem 0%Q values next_state in
      if gt_best value best_value then
        scan h board_ref player moves' values (Some value) [move]
      else if eq_best value best_value then
        scan h board_ref player moves' values best_value (best_moves ++ [move])
      else
        scan h board_ref player moves' values best_value best_moves
  end.

End Store.

(** ** The training driver *)

Section Training.
Context {R : Type} `{RandomSource R}.

(** The loop [while not game.game_over] of one episode. *)
Fixpoint play_loop (fuel : nat) (agent : SimpleAIAgent) (game : TicTacToeGame)
    (x_states o_states : list string) (s : R)
  : outcome (SimpleAIAgent * TicTacToeGame * (list string * list string) * R) :=
  if game_over game then Ret (agent, game, (x_states, o_states), s) else
  match fuel with
  | O => NoFuel
  | S fuel' =>
      let current_state := get_state game in
      let (x_states, o_states) :=
        if String.eqb (current_player game) MARK_X
        then (x_states ++ [current_state], o_states)
        else (x_states, o_states ++ [current_state]) in
      let* (ma, s) := choose_action agent game (current_player game) s in
      let (move, agent) := ma : Z * SimpleAIAgent in
      let* (_, game) := make_move game move None in
      play_loop fuel' agent game x_states o_states s
  end.

(** [game.winner == mark] *)
Definition winner_is (game : TicTacToeGame) (mark : string) : bool :=
  match winner game with
  | Some w => String.eqb w mark
  | None => false
  end.

(** The body of the [for] loop up to the progress check. *)
Definition episode (fuel : nat) (agent : SimpleAIAgent) (game : TicTacToeGame) (s : R)
  : outcome (SimpleAIAgent * TicTacToeGame * R) :=
  let (_, game) := reset game in
  let* (agt, s) := play_loop fuel agent game [] [] s in
  let '(agent, game, (x_states, o_states)) :=
    agt : SimpleAIAgent * TicTacToeGame * (list string * list string) in
  let agent :=
    if winner_is game MARK_X then learn (learn agent x_states 1) o_states 0
    else if winner_is game MARK_O then learn (learn agent x_states 0) o_states 1
    else learn (learn agent x_states (1 # 2)) o_states (1 # 2) in
  Ret (agent, game, s).

(** [for episode in range(episodes)], with the [return None] that the
    progress check executes. *)
Fixpoint train_loop (fuel : nat) (range : list nat) (agent : SimpleAIAgent)
    (game : TicTacToeGame) (s : R) : outcome (SimpleAIAgent * R) :=
  match range with
  | [] => Ret (agent, s)
  | ep :: range' =>
      let* (ag, s) := episode fuel agent game s in
      let (agent, game) := ag : SimpleAIAgent * TicTacToeGame in
      if ((ep + 1) mod 1000 =? 0)%nat then Ret (agent, s)
      else train_loop fuel range' agent game s
  end.

Definition train_agent (fuel : nat) (agent : SimpleAIAgent) (episodes : nat) (s : R)
  : outcome (SimpleAIAgent * R) :=
  let game := Game.init in
  train_loop fuel (seq 0 episodes) agent game s.

End Training.

(** ** The console and the game against a human

    The console is the stream of lines the user will type, the number of
    lines read so far, and the texts written so far: [input] writes its
    prompt and reads the next line, [print] writes its argument (the markup
    is written as it stands in the source). The stream has no end: a user
    who closes the input or interrupts the program ([EOFError] and
    [KeyboardInterrupt] out of [input], which the program does not catch)
    is not modelled, and what is proved of the game against a human is
    proved of a user who keeps typing. The built-ins [int], [str.upper]
    and [str.lower] are parameters; [int] answers [None] where Python
    raises [ValueError]. *)

Record Console : Type := mkConsole {
  lines : nat -> string;
  cursor : nat;
  printed : list string
}.

Definition py_print (text : string) (con : Console) : Console :=
  mkConsole (lines con) (cursor con) (printed con ++ [text]).

Definition input (prompt : string) (con : Console) : string * Console :=
  (lines con (cursor con),
   mkConsole (lines con) (S (cursor con)) (printed con ++ [prompt])).

(** One pass of the loop of [display_board]: the row that starts at cell
    [i], and the rule below it unless it is the last row. *)
Definition display_row (self : TicTacToeGame) (i : Z) (con : Console) : outcome Console :=
  let* a := getitem (board self) i in
  let* b := getitem (board self) (i + 1) in
  let* c := getitem (board self) (i + 2) in
  let con := py_print (" " ++ a ++ " | " ++ b ++ " | " ++ c ++ " ") con in
  Ret (if i <? 6 then py_print "-----------" con else con).

Definition display_board (self : TicTacToeGame) (con : Console) : outcome Console :=
  let con := py_print (String "010" "[bold blue]Current Board:[/bold blue]") con in
  let* con := display_row self 0 con in
  let* con := display_row self 3 con in
  let* con := display_row self 6 con in
  Ret (py_print "" con).

Section HumanPlay.
Variable int : string -> option Z.
Variable upper : string -> string.
Variable lower : string -> string.

(** [get_human_move]: the loop [while True] takes fuel, the number of
    lines the user is given. *)
Fixpoint get_human_move (patience : nat) (game : TicTacToeGame) (con : Console)
  : outcome (Z * Console) :=
  match patience with
  | O => NoFuel
  | S patience' =>
      let (line, con) := input "Enter your move (1-9): " con in
      match int line with
      | Some z =>
          let move := z - 1 in
          if (0 <=? move) && (move <=? 8) && py_in move (available_moves game) then
            Ret (move, con)
          else
            get_human_move patience' game
              (py_print
                 "Invalid move. Please enter a number between 1-9 for an empty space."
                 con)
      | None =>
          get_human_move patience' game
            (py_print "Invalid input. Please enter a number." con)
      end
  end.

Context {R : Type} `{RandomSource R}.

(** The loop [while not game.game_over] of [play_game]. *)
Fixpoint play_game_loop (fuel patience : nat) (human_player ai_player : string)
    (agent : SimpleAIAgent) (game : TicTacToeGame) (con : Console) (s : R)
  : outcome (TicTacToeGame * SimpleAIAgent * (Console * R)) :=
  if game_over game then Ret (game, agent, (con, s)) else
  match fuel with
  | O => NoFuel
  | S fuel' =>
      let* turn :=
        if String.eqb (current_player game) human_player then
          let* (move, con) := get_human_move patience game con in
          let* (_, game) := make_move game move None in
          Ret (game, agent, (con, s))
        else
          let con := py_print "AI is thinking..." con in
          let* (ma, s) := choose_action agent game ai_player s in
          let (move, agent) := ma : Z * SimpleAIAgent in
          let* (_, game) := make_move game move None in
          let con :=
            py_print ("AI placed " ++ ai_player ++ " at position " ++ pretty (move + 1))
              con in
          Ret (game, agent, (con, s)) in
      let '(game, agent, (con, s)) :=
        turn : TicTacToeGame * SimpleAIAgent * (Console * R) in
      let* con := display_board game con in
      play_game_loop fuel' patience human_player ai_player agent game con s
  end.

(** [if game.winner:] on an optional string: [None] and the empty string
    are false. *)
Definition truthy (w : option string) : bool :=
  match w with
  | Some w => negb (String.eqb w "")
  | None => false
  end.

(** [play_game]; the session it played, a local of the function, is
    returned with the states it leaves behind. *)
Definition play_game (fuel patience : nat) (agent : SimpleAIAgent) (con : Console) (s : R)
  : outcome (TicTacToeGame * SimpleAIAgent * (Console * R)) :=
  let game := Game.init in
  let (answer, con) := input "Do you want to be X (goes first) or O? " con in
  let human_player := upper answer in
  let human_player :=
    if String.eqb human_player "X" || String.eqb human_player "O"
    then human_player else "X" in
  let ai_player := if String.eqb human_player "X" then "O" else "X" in
  let con :=
    py_print (String "010" ("You are " ++ human_player ++ ". AI is " ++ ai_player ++ "."))
      con in
  let con :=
    py_print "Board positions are numbered 1-9 from top-left to bottom-right." con in
  let* con := display_board game con in
  let* played := play_game_loop fuel patience human_player ai_player agent game con s in
  let '(game, agent, (con, s)) :=
    played : TicTacToeGame * SimpleAIAgent * (Console * R) in
  let con :=
    if truthy (winner game) then
      if winner_is game human_player
      then py_print "[bold green]Congratulations! You won![/bold green]" con
      else py_print "[bold red]AI wins![/bold red]" con
    else py_print "[bold yellow]It's a tie![/bold yellow]" con in
  Ret (game, agent, (con, s)).

(** The question [main] asks after each game: the loop
    [while attempts < max_attempts], entered with [attempts] wrong answers
    so far and [todo] passes left; [play_again] is the last answer read. *)
Fixpoint ask_play_again (todo : nat) (max_attempts attempts : nat)
    (play_again : option string) (con : Console) : option string * Console :=
  match todo with
  | O => (play_again, con)
  | S todo' =>
      let (answer, con) := input (String "010" "Do you want to play again? (yes/no): ") con in
      let play_again := lower answer in
      if String.eqb play_again "yes" || String.eqb play_again "no" then
        (Some play_again, con)
      else
        let attempts := (attempts + 1)%nat in
        let con :=
          py_print ("[bold red]Invalid answer. You have "
                    ++ pretty (max_attempts - attempts)%nat
                    ++ " more attempts.[/bold red]") con in
        ask_play_again todo' max_attempts attempts (Some play_again) con
  end.

(** The loop [while True] of [main]: a game, the question, and what the
    answer leads to. The fuel is the number of games. *)
Fixpoint main_loop (games fuel patience : nat) (ai_agent : SimpleAIAgent)
    (con : Console) (s : R) : outcome (SimpleAIAgent * (Console * R)) :=
  match games with
  | O => NoFuel
  | S games' =>
      let* played := play_game fuel patience ai_agent con s in
      let '(_, ai_agent, (con, s)) :=
        played : TicTacToeGame * SimpleAIAgent * (Console * R) in
      let max_attempts := 4%nat in
      let (play_again, con) := ask_play_again max_attempts max_attempts 0 None con in
      if match play_again with Some a => String.eqb a "yes" | None => false end then
        let con := py_print (String "010" (String.append
                     "[bold green]Great! Let's play again![/bold green]" (String "010" "")))
                     con in
        main_loop games' fuel patience ai_agent con s
      else if match play_again with Some a => String.eqb a "no" | None => false end then
        Ret (ai_agent, (py_print "[bold cyan]Thanks for playing! Goodbye![/bold cyan]" con, s))
      else
        Ret (ai_agent,
             (py_print (String "010"
                "[bold red]Too many invalid responses. Ending the game automatically. Goodbye![/bold red]")
                con, s))
  end.

End HumanPlay.

(** A small concrete generator, used to run the program on examples. *)
Definition lcg_next (s : nat) : nat := ((s * 21 + 7) mod 64)%nat.

#[global] Instance lcg : RandomSource nat := {|
  random s := (inject_Z (Z.of_nat (s mod 10)) / 10, lcg_next s)%Q;
  randbelow n s := ((s mod n)%nat, lcg_next s);
  randbelow_lt n s Hn := Nat.mod_upper_bound s n (proj2 (Nat.neq_0_lt_0 n) Hn)
|}.

(** * Vocabulary of the specification *)

(** Cell [i] of board [b] is blank. *)
Definition blank_at (b : list string) (i : Z) : Prop :=
  exists n : nat, i = Z.of_nat n /\ b !! n = Some EMPTY.

(** A sequence of [make_move] calls, each with its position and optional
    mark; the success flags are dropped. *)
Definition play (g : TicTacToeGame) (ms : list (Z * option string)) : outcome TicTacToeGame :=
  fold_left
    (fun r m => let* g := r in let* (_, g') := make_move g (fst m) (snd m) in Ret g')
    ms (Ret g).

(** The eight lines of the board: three rows, three columns, two
    diagonals. *)
Definition win_lines : list (nat * nat * nat) :=
  [(0, 1, 2); (3, 4, 5); (6, 7, 8);
   (0, 3, 6); (1, 4, 7); (2, 5, 8);
   (0, 4, 8); (2, 4, 6)]%nat.

(** The three cells of a line all hold [mark]. *)
Definition holds_line (b : list string) (mark : string) (l : nat * nat * nat) : Prop :=
  let '(i, j, k) := l in
  b !! i = Some mark /\ b !! j = Some mark /\ b !! k = Some mark.

Definition holds_lineb (b : list string) (mark : string) (l : nat * nat * nat) : bool :=
  let '(i, j, k) := l in
  bool_decide (b !! i = Some mark) && bool_decide (b !! j = Some mark) &&
  bool_decide (b !! k = Some mark).

(** [mark] occupies one of the eight lines. *)
Definition has_line (b : list string) (mark : string) : Prop :=
  exists l, In l win_lines /\ holds_line b mark l.

Definition has_lineb (b : list string) (mark : string) : bool :=
  existsb (holds_lineb b mark) win_lines.

(** The mark [make_move] writes. *)
Definition mark_of (g : TicTacToeGame) (player : option string) : string :=
  match player with
  | None => current_player g
  | Some p => p
  end.

(** The session a successful [make_move] leaves when it writes [mark]
    into cell [n]. *)
Definition after_move (g : TicTacToeGame) (n : nat) (mark : string) : TicTacToeGame :=
  let b := <[n := mark]> (board g) in
  if has_lineb b mark then mkGame b (current_player g) (Some mark) true
  else if check_tie (mkGame b (current_player g) (winner g) (game_over g)) then
    mkGame b (current_player g) (winner g) true
  else
    mkGame b (if String.eqb (current_player g) MARK_X then MARK_O else MARK_X)
      (winner g) (game_over g).

(** The session after the five moves of the top-row scenario. *)
Definition top_row_game : outcome TicTacToeGame :=
  play Game.init [(0, None); (3, None); (1, None); (4, None); (2, None)].

(** A cell holds one of the three symbols. *)
Definition cell_ok (c : string) : Prop :=
  c = EMPTY \/ c = MARK_X \/ c = MARK_O.

(** Nine cells over the three symbols. *)
Definition wf_board (b : list string) : Prop :=
  length b = 9%nat /\ Forall cell_ok b.

(** A key: nine characters over the three symbols. *)
Definition key_ok (k : string) : Prop :=
  String.length k = 9%nat /\
  Forall (fun a => a = " "%char \/ a = "X"%char \/ a = "O"%char) (list_ascii_of_string k).

(** The board a key stands for: one cell per character. *)
Definition board_of_key (k : string) : list string :=
  map (fun a => String a EmptyString) (list_ascii_of_string k).

(** The mark that does not have the turn. *)
Definition other_mark (mark : string) : string :=
  if String.eqb mark MARK_X then MARK_O else MARK_X.

(** Sessions reached from [reset] by moves on available cells, each made
    with the mark whose turn it is (taken from the session or passed
    explicitly). Nothing is asked of [game_over]. *)
Inductive reachable : TicTacToeGame -> Prop :=
| reachable_reset (g : TicTacToeGame) : reachable (snd (reset g))
| reachable_move (g : TicTacToeGame) (position : Z) (player : option string)
    (g' : TicTacToeGame) :
    reachable g ->
    In position (available_moves g) ->
    player = None \/ player = Some (current_player g) ->
    make_move g position player = Ret (true, g') ->
    reachable g'.

(** Moves made in turn on available cells, checked one by one. *)
Fixpoint legal_play (g : TicTacToeGame) (positions : list Z) : option TicTacToeGame :=
  match positions with
  | [] => Some g
  | p :: positions' =>
      if py_in p (available_moves g) then
        match make_move g p None with
        | Ret (true, g') => legal_play g' positions'
        | _ => None
        end
      else None
  end.

(** What holds of every reachable session. *)
Record game_inv (g : TicTacToeGame) : Prop := {
  inv_board : wf_board (board g);
  inv_turn : current_player g = MARK_X \/ current_player g = MARK_O;
  inv_other : has_lineb (board g) (other_mark (current_player g)) = false;
  inv_winner : forall w, winner g = Some w ->
               w = current_player g /\ has_lineb (board g) w = true /\ game_over g = true;
  inv_no_winner : winner g = None -> has_lineb (board g) (current_player g) = false;
  inv_running : game_over g = false -> winner g = None /\ exists n, board g !! n = Some EMPTY
}.

(** The value and the visit count the agent holds for a key, absent keys
    read at their defaults. *)
Definition value_of (a : SimpleAIAgent) (k : string) : Q :=
  default 0%Q (state_values a !! k).

Definition visits_of (a : SimpleAIAgent) (k : string) : nat :=
  default 0%nat (state_visits a !! k).

(** What the rational agent and the agent on doubles have in common
    when they have been through the same updates: the visit counts and
    the keys of the value table. *)
Definition same_keys_and_counts (a : SimpleAIAgent) (b : Binary64.SimpleAIAgent) : Prop :=
  state_visits a = Binary64.state_visits b /\
  dom (state_values a) = dom (Binary64.state_values b).

(** The key [choose_action] probes for a move: the board with the mark
    written at the move, joined. *)
Definition next_state (game : TicTacToeGame) (player : string) (move : Z) : string :=
  String.concat "" (<[Z.to_nat move := player]> (board game)).

(** What one lookup leaves of the value table. *)
Definition probe (values : gmap string Q) (k : string) : gmap string Q :=
  snd (dd_getitem 0%Q values k).

(** The keys the exploitation loop looks up, in order. *)
Definition probed_keys (game : TicTacToeGame) (player : string) : list string :=
  map (next_state game player) (available_moves game).

(** The key of the blank board, which every episode starts from. *)
Definition blank_key : string := "         ".

(** The number of blank cells. *)
Definition blank_count (b : list string) : nat :=
  length (List.filter (fun c => String.eqb c EMPTY) b).

(** How often the loop of an episode will record the blank board's key
    when it is entered at [g]. *)
Definition fresh_count (g : TicTacToeGame) : nat :=
  if game_over g then 0%nat
  else if decide (get_state g = blank_key) then 1%nat else 0%nat.

(** The number of episodes the loop of [train_agent] runs over a range:
    it stops after the first episode whose number plus one is a multiple
    of 1000. *)
Fixpoint episodes_run (range : list nat) : nat :=
  match range with
  | [] => 0%nat
  | ep :: range' =>
      if ((ep + 1) mod 1000 =? 0)%nat then 1%nat else S (episodes_run range')
  end.

(** The count as the rational the division of [Agent.learn_step]
    receives. *)
Definition count_Q (n : nat) : Q := inject_Z (Z.of_nat n).

(** The blank positions of a list of cells numbered from [s]: what
    [available_moves] computes, for any start of the numbering. *)
Definition available_from (s : Z) (l : list string) : list Z :=
  map fst (List.filter (fun p => String.eqb (snd p) EMPTY) (enumerate_from s l)).

(** How many cells hold a mark. *)
Definition count_mark (b : list string) (mark : string) : nat :=
  count_occ string_dec b mark.

(** A sequence of [learn] calls, each with its trajectory and reward, as
    the driver makes them episode after episode. *)
Definition learn_all (a : SimpleAIAgent) (passes : list (list string * Q)) : SimpleAIAgent :=
  fold_left (fun a p => learn a (fst p) (snd p)) passes a.

(** The number of times the trajectories of the passes visit a key. *)
Fixpoint occurrences (passes : list (list string * Q)) (k : string) : nat :=
  match passes with
  | [] => 0%nat
  | p :: passes' => (count_occ string_dec (fst p) k + occurrences passes' k)%nat
  end.




(** What the two trajectories of an episode look like when its loop is
    entered at [g]: while the game runs they are level when X is to move
    and X is one ahead when O is; once it is over X is level or one
    ahead. *)
Definition trajectories_in_step (g : TicTacToeGame) (xs os : list string) : Prop :=
  if game_over g then length xs = length os \/ length xs = S (length os)
  else (current_player g = MARK_X /\ length xs = length os) \/
       (current_player g = MARK_O /\ length xs = S (length os)).

(** What [get_human_move] makes of a line: the move it stands for when
    it parses to the number of an available cell. *)
Definition accepts (int : string -> option Z) (game : TicTacToeGame) (line : string)
  : option Z :=
  match int line with
  | Some z =>
      if (0 <=? z - 1) && (z - 1 <=? 8) && py_in (z - 1) (available_moves game)
      then Some (z - 1) else None
  | None => None
  end.

(** The mark [play_game] gives the human for an answer. *)
Definition human_mark (upper : string -> string) (answer : string) : string :=
  if String.eqb (upper answer) "X" || String.eqb (upper answer) "O"
  then upper answer else "X".

(** The line [play_game] prints last for a finished session. *)
Definition verdict (human_player : string) (g : TicTacToeGame) : string :=
  match winner g with
  | Some w =>
      if String.eqb w human_player
      then "[bold green]Congratulations! You won![/bold green]"
      else "[bold red]AI wins![/bold red]"
  | None => "[bold yellow]It's a tie![/bold yellow]"
  end.

(** A user who keeps naming every cell: from any line on, each of the
    nine numbers comes up within [patience] lines. *)
Definition names_every_cell (int : string -> option Z) (lines : nat -> string)
    (patience : nat) : Prop :=
  forall (c : nat) (m : Z), 0 <= m <= 8 ->
    exists j : nat, (j < patience)%nat /\ int (lines (c + j)%nat) = Some (m + 1).

(** An answer to the question after a game that ends the asking. *)
Definition settles (answer : string) : bool :=
  String.eqb answer "yes" || String.eqb answer "no".

(** A parser of the one-digit numbers and a user who types 1 to 9 round
    and round, used to run the game on examples. *)
Definition digit_int (line : string) : option Z :=
  match line with
  | String c EmptyString =>
      if (48 <=? nat_of_ascii c)%nat && (nat_of_ascii c <=? 57)%nat
      then Some (Z.of_nat (nat_of_ascii c) - 48) else None
  | _ => None
  end.

Definition round_and_round (i : nat) : string :=
  String (ascii_of_nat (49 + i mod 9)) EmptyString.

(** A result that is not an exception: the code returned a value with
    the property, or its loop was still running when the fuel ran out. *)
Definition no_raise {A : Type} (P : A -> Prop) (o : outcome A) : Prop :=
  match o with
  | Ret x => P x
  | Raise _ => False
  | NoFuel => True
  end.

(** The two lines [main] can end on. *)
Definition farewell (text : string) : Prop :=
  text = "[bold cyan]Thanks for playing! Goodbye![/bold cyan]" \/
  text = String "010"
    "[bold red]Too many invalid responses. Ending the game automatically. Goodbye![/bold red]".

(** * Properties *)

(** ** Python lists *)

Lemma py_in_In (x : Z) (l : list Z) : py_in x l = true <-> In x l.
Proof.
  unfold py_in. rewrite existsb_exists. split.
  - intros [y [Hy Heq]]. apply Z.eqb_eq in Heq. now subst.
  - intros Hx. exists x. split; [assumption | apply Z.eqb_refl].
Qed.

Lemma py_index_nat (len n : nat) :
  (n < len)%nat -> py_index len (Z.of_nat n) = Ret n.
Proof.
  intros Hn. unfold py_index.
  assert (H1 : (0 <=? Z.of_nat n) = true) by (apply Z.leb_le; lia).
  assert (H2 : (Z.of_nat n <? Z.of_nat len) = true) by (apply Z.ltb_lt; lia).
  rewrite H1, H2. simpl. now rewrite Nat2Z.id.
Qed.

Lemma getitem_nat {A : Type} (l : list A) (n : nat) (x : A) :
  l !! n = Some x -> getitem l (Z.of_nat n) = Ret x.
Proof.
  intros Hx. unfold getitem.
  rewrite py_index_nat by (eapply lookup_lt_Some; eassumption).
  simpl. now rewrite Hx.
Qed.

Lemma setitem_nat {A : Type} (l : list A) (n : nat) (x : A) :
  (n < length l)%nat -> setitem l (Z.of_nat n) x = Ret (<[n := x]> l).
Proof.
  intros Hn. unfold setitem. now rewrite py_index_nat.
Qed.

Lemma enumerate_from_In {A : Type} (l : list A) (s i : Z) (x : A) :
  In (i, x) (enumerate_from s l) <-> exists n : nat, i = s + Z.of_nat n /\ l !! n = Some x.
Proof.
  revert s. induction l as [| y l IH]; intros s; simpl.
  - split; [tauto | intros [n [_ Hn]]; discriminate].
  - rewrite IH. split.
    + intros [Heq | [n [Hi Hn]]].
      * inversion Heq; subst. exists 0%nat. split; [lia | reflexivity].
      * exists (S n). split; [lia | exact Hn].
    + intros [[| n] [Hi Hn]].
      * left. simpl in Hn. inversion Hn; subst. f_equal. lia.
      * right. exists n. split; [lia | exact Hn].
Qed.

(** ** The engine: [available_moves] *)

Lemma available_moves_In (g : TicTacToeGame) (i : Z) :
  In i (available_moves g) <-> blank_at (board g) i.
Proof.
  unfold available_moves, enumerate, blank_at. rewrite in_map_iff. split.
  - intros [[j x] [Hj Hin]]. simpl in Hj. subst j.
    apply filter_In in Hin. destruct Hin as [Hin Hx]. simpl in Hx.
    apply String.eqb_eq in Hx. subst x.
    apply enumerate_from_In in Hin. destruct Hin as [n [Hi Hn]].
    exists n. split; [lia | exact Hn].
  - intros [n [Hi Hn]]. exists (i, EMPTY). split; [reflexivity |].
    apply filter_In. split; [| apply String.eqb_refl].
    apply enumerate_from_In. exists n. split; [lia | exact Hn].
Qed.

Lemma available_from_sorted (l : list string) (s : Z) :
  StronglySorted Z.lt
    (map fst (List.filter (fun p => String.eqb (snd p) EMPTY) (enumerate_from s l))) /\
  Forall (fun i => s <= i)
    (map fst (List.filter (fun p => String.eqb (snd p) EMPTY) (enumerate_from s l))).
Proof.
  revert s. induction l as [| x l IH]; intros s; simpl.
  - split; constructor.
  - destruct (IH (s + 1)) as [Hs Hb].
    assert (Hb' : Forall (fun i => s < i)
      (map fst (List.filter (fun p => String.eqb (snd p) EMPTY) (enumerate_from (s + 1) l)))).
    { eapply List.Forall_impl; [| exact Hb]. simpl. intros; lia. }
    destruct (String.eqb x EMPTY); simpl.
    + split.
      * constructor; assumption.
      * constructor; [lia |]. eapply List.Forall_impl; [| exact Hb']. simpl. intros; lia.
    + split; [assumption |]. eapply List.Forall_impl; [| exact Hb']. simpl. intros; lia.
Qed.

Lemma available_moves_sorted (g : TicTacToeGame) :
  StronglySorted Z.lt (available_moves g).
Proof. apply (available_from_sorted (board g) 0). Qed.

(** C7: [reset] gives nine blank cells, [X] to move, no winner, a game
    that is not over, and returns the key of that board; the fresh session
    offers the moves 0..8 in ascending order; on any board
    [available_moves] lists exactly the indices of the blank cells, in
    strictly ascending order. *)
Theorem reset_and_available_moves (g : TicTacToeGame) :
  (let (key, g') := reset g in
   board g' = [EMPTY; EMPTY; EMPTY; EMPTY; EMPTY; EMPTY; EMPTY; EMPTY; EMPTY] /\
   current_player g' = MARK_X /\
   winner g' = None /\
   game_over g' = false /\
   key = get_state g' /\
   key = "         " /\
   available_moves g' = [0; 1; 2; 3; 4; 5; 6; 7; 8]) /\
  (forall i : Z,
     In i (available_moves g) <->
     0 <= i < Z.of_nat (length (board g)) /\ board g !! Z.to_nat i = Some EMPTY) /\
  StronglySorted Z.lt (available_moves g).
Proof.
  split; [| split].
  - simpl. repeat split; reflexivity.
  - intros i. rewrite available_moves_In. unfold blank_at. split.
    + intros [n [Hi Hn]]. subst i. rewrite Nat2Z.id. split; [| exact Hn].
      apply lookup_lt_Some in Hn. lia.
    + intros [Hi Hn]. exists (Z.to_nat i). split; [lia | exact Hn].
  - apply available_moves_sorted.
Qed.

(** ** The engine: [make_move] *)

(** C3: a position that is not among the available moves makes
    [make_move] return [False] without raising and leaves every field of
    the session as it was. *)
Theorem make_move_illegal (g : TicTacToeGame) (position : Z) (player : option string) :
  ~ In position (available_moves g) ->
  make_move g position player = Ret (false, g).
Proof.
  intros Hnot. unfold make_move.
  destruct (py_in position (available_moves g)) eqn:Hin.
  - apply py_in_In in Hin. contradiction.
  - reflexivity.
Qed.


(** ** The engine: [check_win] *)

Lemma holds_lineb_spec (b : list string) (mark : string) (l : nat * nat * nat) :
  holds_lineb b mark l = true <-> holds_line b mark l.
Proof.
  destruct l as [[i j] k]. unfold holds_lineb, holds_line.
  rewrite !andb_true_iff, !bool_decide_eq_true. tauto.
Qed.

Lemma has_lineb_spec (b : list string) (mark : string) :
  has_lineb b mark = true <-> has_line b mark.
Proof.
  unfold has_lineb, has_line. rewrite existsb_exists.
  split; intros [l [Hl Hh]]; exists l; (split; [exact Hl |]);
    now apply holds_lineb_spec.
Qed.

(** On cells that exist, the chained comparison is the conjunction of
    three equalities with the mark. *)
Lemma line_eq_spec (g : TicTacToeGame) (mark : string) (i j k : nat) :
  (i < length (board g))%nat -> (j < length (board g))%nat -> (k < length (board g))%nat ->
  line_eq g mark (Z.of_nat i, Z.of_nat j, Z.of_nat k) =
  Ret (holds_lineb (board g) mark (i, j, k)).
Proof.
  intros Hi Hj Hk.
  destruct (lookup_lt_is_Some_2 _ _ Hi) as [a Ha].
  destruct (lookup_lt_is_Some_2 _ _ Hj) as [b Hb].
  destruct (lookup_lt_is_Some_2 _ _ Hk) as [c Hc].
  unfold line_eq, holds_lineb.
  rewrite (getitem_nat _ _ _ Ha), (getitem_nat _ _ _ Hb), (getitem_nat _ _ _ Hc).
  rewrite Ha, Hb, Hc. simpl.
  destruct (String.eqb_spec a b) as [-> | Hab]; simpl.
  - destruct (String.eqb_spec b c) as [-> | Hbc]; simpl.
    + destruct (String.eqb_spec c mark) as [-> | Hcm].
      * now rewrite !bool_decide_eq_true_2.
      * rewrite (bool_decide_eq_false_2 (Some c = Some mark)) by congruence.
        reflexivity.
    + destruct (decide (b = mark)) as [-> | Hbm].
      * rewrite (bool_decide_eq_false_2 (Some c = Some mark)) by congruence.
        now rewrite andb_false_r.
      * rewrite (bool_decide_eq_false_2 (Some b = Some mark)) by congruence.
        reflexivity.
  - destruct (decide (a = mark)) as [-> | Ham].
    + rewrite (bool_decide_eq_false_2 (Some b = Some mark)) by congruence.
      now rewrite andb_false_r.
    + rewrite (bool_decide_eq_false_2 (Some a = Some mark)) by congruence.
      reflexivity.
Qed.

(** On a nine-cell board [check_win] never raises and answers whether the
    mark occupies one of the eight lines. *)
Lemma check_win_spec (g : TicTacToeGame) (mark : string) :
  length (board g) = 9%nat ->
  check_win g mark = Ret (has_lineb (board g) mark).
Proof.
  intros Hlen. unfold check_win, has_lineb, win_lines. simpl map.
  unfold first_line.
  change 0 with (Z.of_nat 0); change 1 with (Z.of_nat 1); change 2 with (Z.of_nat 2).
  change (Z.of_nat 0 + Z.of_nat 1) with (Z.of_nat 1).
  change (Z.of_nat 0 + Z.of_nat 2) with (Z.of_nat 2).
  change (Z.of_nat 0 + 3) with (Z.of_nat 3).
  change (Z.of_nat 0 + 6) with (Z.of_nat 6).
  change (Z.of_nat 1 + 3) with (Z.of_nat 4).
  change (Z.of_nat 1 + 6) with (Z.of_nat 7).
  change (Z.of_nat 2 + 3) with (Z.of_nat 5).
  change (Z.of_nat 2 + 6) with (Z.of_nat 8).
  change (3 + Z.of_nat 1) with (Z.of_nat 4).
  change (3 + Z.of_nat 2) with (Z.of_nat 5).
  change (6 + Z.of_nat 1) with (Z.of_nat 7).
  change (6 + Z.of_nat 2) with (Z.of_nat 8).
  change 3 with (Z.of_nat 3); change 4 with (Z.of_nat 4); change 6 with (Z.of_nat 6);
    change 8 with (Z.of_nat 8).
  rewrite !line_eq_spec by (rewrite Hlen; lia).
  unfold existsb.
  repeat match goal with
         | |- context [holds_lineb ?b ?m ?l] =>
             let x := fresh "line" in
             generalize (holds_lineb b m l); intros x
         end.
  repeat match goal with
         | x : bool |- _ => destruct x
         end; reflexivity.
Qed.

(** ** The engine: legal moves *)

Lemma make_move_legal (g : TicTacToeGame) (n : nat) (player : option string) :
  length (board g) = 9%nat ->
  board g !! n = Some EMPTY ->
  make_move g (Z.of_nat n) player = Ret (true, after_move g n (mark_of g player)).
Proof.
  intros Hlen Hn.
  assert (Hin : py_in (Z.of_nat n) (available_moves g) = true).
  { apply py_in_In, available_moves_In. now exists n. }
  unfold make_move. rewrite Hin. simpl negb. cbv iota.
  rewrite setitem_nat by (eapply lookup_lt_Some; eassumption).
  fold (mark_of g player). simpl bind.
  rewrite check_win_spec by (simpl; now rewrite length_insert).
  unfold after_move. simpl.
  destruct (has_lineb (<[n:=mark_of g player]> (board g)) (mark_of g player)); simpl.
  - reflexivity.
  - destruct (check_tie _); reflexivity.
Qed.

Lemma make_move_available (g : TicTacToeGame) (position : Z) (player : option string) :
  length (board g) = 9%nat ->
  In position (available_moves g) ->
  make_move g position player =
  Ret (true, after_move g (Z.to_nat position) (mark_of g player)).
Proof.
  intros Hlen Hin. apply available_moves_In in Hin.
  destruct Hin as [n [-> Hn]]. rewrite Nat2Z.id. now apply make_move_legal.
Qed.

Lemma after_move_board (g : TicTacToeGame) (n : nat) (mark : string) :
  board (after_move g n mark) = <[n := mark]> (board g).
Proof.
  unfold after_move.
  destruct (has_lineb _ _); [reflexivity |]. destruct (check_tie _); reflexivity.
Qed.

(** C8: from a fresh session the moves X at 0, O at 3, X at 1, O at 4,
    X at 2 (marks taken from the turn or given explicitly) end with winner
    X, the game over, and the four untouched cells 5..8 still listed as
    available. *)
Theorem top_row_scenario :
  top_row_game =
    Ret (mkGame ["X"; "X"; "X"; "O"; "O"; " "; " "; " "; " "] "X" (Some MARK_X) true) /\
  play (snd (reset Game.init))
    [(0, Some MARK_X); (3, Some MARK_O); (1, Some MARK_X); (4, Some MARK_O); (2, Some MARK_X)]
    = top_row_game /\
  (let* g := top_row_game in
   Ret (winner g, game_over g, available_moves g)) =
    Ret (Some MARK_X, true, [5; 6; 7; 8]).
Proof. repeat split; vm_compute; reflexivity. Qed.

(** C9: on a nine-cell board [make_move] succeeds exactly on the available
    positions, whatever [game_over] says; on a finished session with a
    blank cell it returns [True] and writes the mark there; and a mark
    given explicitly can replace a winner that was already set. *)
Theorem make_move_ignores_game_over :
  (forall g position player,
     length (board g) = 9%nat ->
     ((exists g', make_move g position player = Ret (true, g')) <->
      In position (available_moves g))) /\
  (forall g position player,
     length (board g) = 9%nat ->
     game_over g = true ->
     In position (available_moves g) ->
     exists g',
       make_move g position player = Ret (true, g') /\
       board g' = <[Z.to_nat position := mark_of g player]> (board g) /\
       (mark_of g player <> EMPTY -> board g' <> board g)) /\
  (exists g g',
     game_over g = true /\ winner g = Some MARK_X /\
     make_move g 5 (Some MARK_O) = Ret (true, g') /\
     winner g' = Some MARK_O /\ board g' <> board g).
Proof.
  split; [| split].
  - intros g position player Hlen. split.
    + intros [g' Hg'].
      unfold make_move in Hg'.
      destruct (py_in position (available_moves g)) eqn:Hin.
      * now apply py_in_In.
      * discriminate.
    + intros Hin. eexists. now apply make_move_available.
  - intros g position player Hlen _ Hin.
    exists (after_move g (Z.to_nat position) (mark_of g player)).
    split; [now apply make_move_available |].
    rewrite after_move_board. split; [reflexivity |].
    intros Hmark Heq.
    apply available_moves_In in Hin. destruct Hin as [n [-> Hn]].
    rewrite Nat2Z.id in Heq.
    assert (Hn' : <[n := mark_of g player]> (board g) !! n = Some (mark_of g player)).
    { apply list_lookup_insert_eq. eapply lookup_lt_Some; eassumption. }
    rewrite Heq, Hn in Hn'. congruence.
  - exists (mkGame ["X"; "X"; "X"; "O"; "O"; " "; " "; " "; " "] "X" (Some MARK_X) true).
    exists (mkGame ["X"; "X"; "X"; "O"; "O"; "O"; " "; " "; " "] "X" (Some MARK_O) true).
    split; [reflexivity |]. split; [reflexivity |].
    split; [vm_compute; reflexivity |]. split; [reflexivity | discriminate].
Qed.

(** C9 at the session the top-row scenario ends in: cell 5 is blank, the
    game is over, and the move succeeds. *)
Lemma make_move_ignores_game_over_witness :
  let g := mkGame ["X"; "X"; "X"; "O"; "O"; " "; " "; " "; " "] "X" (Some MARK_X) true in
  exists g',
    make_move g 5 None = Ret (true, g') /\
    board g' = <[Z.to_nat 5 := mark_of g None]> (board g) /\
    (mark_of g None <> EMPTY -> board g' <> board g).
Proof.
  apply (proj1 (proj2 make_move_ignores_game_over)).
  - reflexivity.
  - reflexivity.
  - vm_compute. tauto.
Defined.

(** C3 at an occupied cell. *)
Lemma make_move_illegal_witness :
  let g := mkGame ["X"; " "; " "; " "; " "; " "; " "; " "; " "] "O" None false in
  ~ In 0 (available_moves g) /\ make_move g 0 None = Ret (false, g).
Proof.
  assert (Hnot : ~ In 0 (available_moves
    (mkGame ["X"; " "; " "; " "; " "; " "; " "; " "; " "] "O" None false))).
  { vm_compute. intuition discriminate. }
  split; [exact Hnot | apply (make_move_illegal _ 0 None Hnot)].
Defined.

(** C3 out of range, on either side of the board. *)
Example make_move_out_of_range :
  make_move Game.init 9 None = Ret (false, Game.init) /\
  make_move Game.init (-1) None = Ret (false, Game.init).
Proof. split; reflexivity. Qed.

(** ** State keys *)

Lemma append_String (a : ascii) (s t : string) :
  (String a s ++ t)%string = String a (s ++ t)%string.
Proof. reflexivity. Qed.

Lemma append_empty_r (s : string) : (s ++ "")%string = s.
Proof.
  induction s as [| a s IH]; [reflexivity |].
  rewrite append_String. now f_equal.
Qed.

Lemma concat_empty_cons (x : string) (xs : list string) :
  String.concat "" (x :: xs) = (x ++ String.concat "" xs)%string.
Proof.
  destruct xs as [| y ys]; simpl.
  - now rewrite append_empty_r.
  - reflexivity.
Qed.

Lemma cell_ok_one_char (c : string) :
  cell_ok c -> exists a, c = String a EmptyString.
Proof. intros [-> | [-> | ->]]; eexists; reflexivity. Qed.

Lemma board_of_key_concat (b : list string) :
  Forall cell_ok b ->
  board_of_key (String.concat "" b) = b /\
  String.length (String.concat "" b) = length b.
Proof.
  induction 1 as [| c b Hc Hb [IH1 IH2]].
  - split; reflexivity.
  - rewrite concat_empty_cons.
    destruct (cell_ok_one_char c Hc) as [a ->].
    rewrite append_String. change (String.append "" ?t) with t.
    unfold board_of_key in *. simpl. rewrite IH1, IH2. split; reflexivity.
Qed.

Lemma concat_board_of_key (k : string) :
  String.concat "" (board_of_key k) = k.
Proof.
  induction k as [| a k IH]; [reflexivity |].
  unfold board_of_key in *. simpl map. rewrite concat_empty_cons.
  rewrite append_String. change (String.append "" ?t) with t.
  now rewrite IH.
Qed.

(** C10: [get_state] is the concatenation of the nine cells in index
    order; on boards of nine cells over the three symbols it yields a
    nine-character key from which the board is recovered, so it is
    injective; and every nine-character key over the three symbols is the
    key of the board it decodes to. *)
Theorem get_state_injective :
  (forall c0 c1 c2 c3 c4 c5 c6 c7 c8 cp w go,
     get_state (mkGame [c0; c1; c2; c3; c4; c5; c6; c7; c8] cp w go) =
     (c0 ++ c1 ++ c2 ++ c3 ++ c4 ++ c5 ++ c6 ++ c7 ++ c8)%string) /\
  (forall g,
     wf_board (board g) ->
     String.length (get_state g) = 9%nat /\ board_of_key (get_state g) = board g) /\
  (forall g g',
     wf_board (board g) -> wf_board (board g') ->
     get_state g = get_state g' -> board g = board g') /\
  (forall k cp w go,
     key_ok k ->
     wf_board (board_of_key k) /\ get_state (mkGame (board_of_key k) cp w go) = k).
Proof.
  split; [| split; [| split]].
  - reflexivity.
  - intros g [Hlen Hcells]. unfold get_state.
    destruct (board_of_key_concat _ Hcells) as [H1 H2]. split; congruence.
  - intros g g' [_ Hg] [_ Hg'] Heq. unfold get_state in Heq.
    rewrite <- (proj1 (board_of_key_concat _ Hg)),
            <- (proj1 (board_of_key_concat _ Hg')).
    now rewrite Heq.
  - intros k cp w go [Hlen Hchars]. split; [split |].
    + unfold board_of_key. rewrite length_map.
      clear Hchars. revert Hlen. generalize 9%nat.
      induction k as [| a k IH]; intros n Hn; simpl in *; [exact Hn |].
      destruct n as [| n]; [discriminate |]. f_equal. apply IH. congruence.
    + unfold board_of_key. apply Forall_map.
      eapply List.Forall_impl; [| exact Hchars].
      intros a [-> | [-> | ->]]; unfold cell_ok, EMPTY, MARK_X, MARK_O; simpl; tauto.
    + apply concat_board_of_key.
Qed.

(** The three-symbol alphabet matters: marks of other lengths, which
    [make_move] accepts when passed explicitly, let two different boards
    share a key. *)
Example long_marks_share_a_key :
  (let* g1 := play Game.init [(0, Some "XO"); (1, Some "")] in
   let* g2 := play Game.init [(0, Some "X"); (1, Some "O")] in
   Ret (bool_decide (get_state g1 = get_state g2), bool_decide (board g1 = board g2)))
  = Ret (true, false).
Proof. vm_compute. reflexivity. Qed.

(** C10 on the fresh board and a board in play. *)
Lemma get_state_injective_witness :
  let g := Game.init in
  let g' := mkGame ["X"; " "; " "; " "; "O"; " "; " "; " "; " "] "X" None false in
  (String.length (get_state g) = 9%nat /\ board_of_key (get_state g) = board g) /\
  (get_state g = get_state g' -> board g = board g').
Proof.
  assert (Hwf : forall b, length b = 9%nat -> forallb (fun c =>
            String.eqb c EMPTY || String.eqb c MARK_X || String.eqb c MARK_O) b = true ->
          wf_board b).
  { intros b Hlen Hb. split; [exact Hlen |]. apply Forall_forall. intros c Hc.
    rewrite forallb_forall in Hb. specialize (Hb c (proj1 (list_elem_of_In _ _) Hc)).
    rewrite !orb_true_iff, !String.eqb_eq in Hb. unfold cell_ok. tauto. }
  split.
  - apply (proj1 (proj2 get_state_injective)). now apply Hwf.
  - apply (proj1 (proj2 (proj2 get_state_injective))); now apply Hwf.
Defined.

(** ** The engine: lines under a move *)

(** Writing a mark into a blank cell neither gives nor takes a cell of a
    different mark. *)
Lemma insert_other_mark (b : list string) (n i : nat) (m q : string) :
  b !! n = Some EMPTY -> q <> m -> q <> EMPTY ->
  bool_decide (<[n := m]> b !! i = Some q) = bool_decide (b !! i = Some q).
Proof.
  intros Hn Hqm Hqe. destruct (decide (n = i)) as [<- | Hne].
  - rewrite list_lookup_insert_eq by (eapply lookup_lt_Some; eassumption).
    rewrite Hn. rewrite !bool_decide_eq_false_2; congruence.
  - now rewrite list_lookup_insert_ne.
Qed.

Lemma has_lineb_insert_other (b : list string) (n : nat) (m q : string) :
  b !! n = Some EMPTY -> q <> m -> q <> EMPTY ->
  has_lineb (<[n := m]> b) q = has_lineb b q.
Proof.
  intros Hn Hqm Hqe. unfold has_lineb, win_lines, existsb, holds_lineb.
  now rewrite !(insert_other_mark b n _ m q Hn Hqm Hqe).
Qed.

Lemma insert_same_mark (b : list string) (n i : nat) (m : string) :
  b !! i = Some m -> <[n := m]> b !! i = Some m.
Proof.
  intros Hi. destruct (decide (n = i)) as [<- | Hne].
  - apply list_lookup_insert_eq. eapply lookup_lt_Some; eassumption.
  - now rewrite list_lookup_insert_ne.
Qed.

Lemma has_lineb_insert_same (b : list string) (n : nat) (m : string) :
  has_lineb b m = true -> has_lineb (<[n := m]> b) m = true.
Proof.
  rewrite !has_lineb_spec. intros [[[i j] k] [Hl [Hi [Hj Hk]]]].
  exists (i, j, k). split; [exact Hl |].
  repeat split; now apply insert_same_mark.
Qed.

Lemma other_mark_neq (m : string) :
  m = MARK_X \/ m = MARK_O ->
  other_mark m <> m /\ other_mark m <> EMPTY /\ other_mark (other_mark m) = m /\
  (other_mark m = MARK_X \/ other_mark m = MARK_O).
Proof. intros [-> | ->]; vm_compute; intuition discriminate. Qed.

(** ** The engine: the invariant of play *)

Lemma game_inv_reset (g : TicTacToeGame) : game_inv (snd (reset g)).
Proof.
  split; simpl.
  - split; [reflexivity |]. repeat constructor.
  - now left.
  - reflexivity.
  - discriminate.
  - reflexivity.
  - intros _. split; [reflexivity |]. now exists 0%nat.
Qed.

Lemma game_inv_after_move (g : TicTacToeGame) (n : nat) :
  game_inv g -> board g !! n = Some EMPTY ->
  game_inv (after_move g n (current_player g)).
Proof.
  intros [[Hlen Hcells] Hturn Hother Hwin Hnone Hrun] Hn.
  destruct (other_mark_neq _ Hturn) as [Hom [Hoe [Hoo Hoc]]].
  set (m := current_player g) in *.
  assert (Hwf : wf_board (<[n := m]> (board g))).
  { split; [now rewrite length_insert |].
    apply Forall_insert; [exact Hcells |].
    unfold cell_ok. tauto. }
  assert (Hq : has_lineb (<[n := m]> (board g)) (other_mark m) = false).
  { now rewrite has_lineb_insert_other. }
  unfold after_move. fold m.
  destruct (has_lineb (<[n := m]> (board g)) m) eqn:Hline.
  - split; simpl.
    + exact Hwf.
    + exact Hturn.
    + exact Hq.
    + intros w Hw. inversion Hw; subst w. auto.
    + discriminate.
    + discriminate.
  - assert (Hw : winner g = None).
    { destruct (winner g) as [w |] eqn:Hw; [| reflexivity].
      destruct (Hwin w eq_refl) as [-> [Hl _]].
      apply (has_lineb_insert_same _ n) in Hl. fold m in Hl. congruence. }
    unfold check_tie. cbn [board winner]. rewrite Hw.
    destruct (existsb (String.eqb EMPTY) (<[n := m]> (board g))) eqn:Hblank;
      cbn [negb andb].
    + fold (other_mark m). split; cbn [board current_player winner game_over].
      * exact Hwf.
      * exact Hoc.
      * now rewrite Hoo.
      * discriminate.
      * intros _. exact Hq.
      * intros _. split; [reflexivity |].
        apply existsb_exists in Hblank. destruct Hblank as [c [Hc Heq]].
        apply String.eqb_eq in Heq. subst c.
        apply list_elem_of_In, list_elem_of_lookup in Hc. exact Hc.
    + split; cbn [board current_player winner game_over].
      * exact Hwf.
      * exact Hturn.
      * exact Hq.
      * discriminate.
      * intros _. exact Hline.
      * discriminate.
Qed.

Lemma reachable_inv (g : TicTacToeGame) : reachable g -> game_inv g.
Proof.
  induction 1 as [g | g position player g' Hr IH Hin Hpl Hmove].
  - apply game_inv_reset.
  - rewrite make_move_available in Hmove
      by (assumption || apply (inv_board _ IH)).
    inversion Hmove; subst g'.
    assert (Hmark : mark_of g player = current_player g)
      by (destruct Hpl as [-> | ->]; reflexivity).
    rewrite Hmark. apply available_moves_In in Hin.
    destruct Hin as [n [-> Hn]]. rewrite Nat2Z.id.
    now apply game_inv_after_move.
Qed.

(** C5: on a session reached from [reset] by moves on available cells
    made in turn, [check_win] answers (without raising) and is true for at
    most one of the two marks; and a winner, when set, makes [check_win]
    true and holds the three cells of one of the eight lines. *)
Theorem at_most_one_winner (g : TicTacToeGame) :
  reachable g ->
  (exists wx wo : bool,
     check_win g MARK_X = Ret wx /\ check_win g MARK_O = Ret wo /\
     (wx = false \/ wo = false)) /\
  (forall m, winner g = Some m ->
     check_win g m = Ret true /\
     exists i j k, In (i, j, k) win_lines /\
       board g !! i = Some m /\ board g !! j = Some m /\ board g !! k = Some m).
Proof.
  intros Hr. pose proof (reachable_inv g Hr) as Hinv.
  destruct Hinv as [[Hlen Hcells] Hturn Hother Hwin Hnone Hrun].
  split.
  - exists (has_lineb (board g) MARK_X), (has_lineb (board g) MARK_O).
    rewrite !check_win_spec by exact Hlen.
    split; [reflexivity |]. split; [reflexivity |].
    destruct Hturn as [Hx | Ho].
    + right. rewrite Hx in Hother. exact Hother.
    + left. rewrite Ho in Hother. exact Hother.
  - intros m Hm. destruct (Hwin m Hm) as [_ [Hl _]].
    rewrite check_win_spec by exact Hlen. split; [now rewrite Hl |].
    apply has_lineb_spec in Hl. destruct Hl as [[[i j] k] [Hin Hh]].
    exists i, j, k. split; [exact Hin | exact Hh].
Qed.

Lemma legal_play_reachable (g : TicTacToeGame) (positions : list Z) (g' : TicTacToeGame) :
  reachable g -> legal_play g positions = Some g' -> reachable g'.
Proof.
  revert g. induction positions as [| p ps IH]; intros g Hr Hplay; simpl in Hplay.
  - inversion Hplay; subst g'. exact Hr.
  - destruct (py_in p (available_moves g)) eqn:Hin; [| discriminate].
    destruct (make_move g p None) as [[[|] g1] | |] eqn:Hmove; try discriminate.
    apply (IH g1); [| exact Hplay].
    apply (reachable_move g p None g1 Hr); [now apply py_in_In | now left | exact Hmove].
Qed.

(** C5 at the end of the top-row scenario. *)
Lemma top_row_reachable :
  reachable (mkGame ["X"; "X"; "X"; "O"; "O"; " "; " "; " "; " "] "X" (Some MARK_X) true).
Proof.
  apply (legal_play_reachable (snd (reset Game.init)) [0; 3; 1; 4; 2]).
  - apply reachable_reset.
  - vm_compute. reflexivity.
Qed.

Lemma at_most_one_winner_witness :
  let g := mkGame ["X"; "X"; "X"; "O"; "O"; " "; " "; " "; " "] "X" (Some MARK_X) true in
  reachable g /\
  (exists wx wo : bool,
     check_win g MARK_X = Ret wx /\ check_win g MARK_O = Ret wo /\
     (wx = false \/ wo = false)) /\
  (forall m, winner g = Some m ->
     check_win g m = Ret true /\
     exists i j k, In (i, j, k) win_lines /\
       board g !! i = Some m /\ board g !! j = Some m /\ board g !! k = Some m).
Proof.
  split; [exact top_row_reachable | apply (at_most_one_winner _ top_row_reachable)].
Defined.

(** Marks placed out of turn are outside the invariant: with explicit
    marks both players can end up holding a line. *)
Example out_of_turn_two_lines :
  (let* g := play Game.init
       [(0, Some MARK_X); (1, Some MARK_X); (2, Some MARK_X);
        (3, Some MARK_O); (4, Some MARK_O); (5, Some MARK_O)] in
   let* wx := check_win g MARK_X in
   let* wo := check_win g MARK_O in
   Ret (wx, wo, winner g)) = Ret (true, true, Some MARK_O).
Proof. vm_compute. reflexivity. Qed.

(** ** The agent: [learn] *)

Lemma dd_getitem_value {V : Type} (d0 : V) (d : gmap string V) (k : string) :
  fst (dd_getitem d0 d k) = default d0 (d !! k).
Proof. unfold dd_getitem. destruct (d !! k); reflexivity. Qed.

Lemma dd_getitem_lookup {V : Type} (d0 : V) (d : gmap string V) (k k' : string) :
  default d0 (snd (dd_getitem d0 d k) !! k') = default d0 (d !! k').
Proof.
  unfold dd_getitem. destruct (d !! k) eqn:Hk; simpl; [reflexivity |].
  destruct (decide (k = k')) as [<- | Hne].
  - now rewrite lookup_insert_eq, Hk.
  - now rewrite lookup_insert_ne.
Qed.

Lemma dd_getitem_insert {V : Type} (d0 x : V) (d : gmap string V) (k : string) :
  <[k := x]> (snd (dd_getitem d0 d k)) = <[k := x]> d.
Proof.
  unfold dd_getitem. destruct (d !! k); simpl; [reflexivity |].
  apply insert_insert_eq.
Qed.

Lemma dd_getitem_present {V : Type} (d0 x : V) (d : gmap string V) (k : string) :
  d !! k = Some x -> dd_getitem d0 d k = (x, d).
Proof. intros Hk. unfold dd_getitem. now rewrite Hk. Qed.

(** One iteration of [learn]: the count goes up by one, the value moves
    by the incremental-mean formula, nothing else changes. *)
Lemma learn_step_spec (r : Q) (a : SimpleAIAgent) (k : string) :
  learn_step r a k =
  mkAgent (epsilon a)
    (<[k := (value_of a k + (r - value_of a k) / count_Q (visits_of a k + 1))%Q]>
       (state_values a))
    (<[k := (visits_of a k + 1)%nat]> (state_visits a)).
Proof.
  unfold learn_step, value_of, visits_of, count_Q.
  destruct (dd_getitem 0%nat (state_visits a) k) as [n visits] eqn:Hvis.
  destruct (dd_getitem 0%Q (state_values a) k) as [v0 values0] eqn:Hv0.
  destruct (dd_getitem 0%Q values0 k) as [v1 values1] eqn:Hv1.
  assert (Hn : n = default 0%nat (state_visits a !! k))
    by (rewrite <- dd_getitem_value, Hvis; reflexivity).
  assert (Hvisits : <[k := (n + 1)%nat]> visits = <[k := (n + 1)%nat]> (state_visits a)).
  { replace visits with (snd (dd_getitem 0%nat (state_visits a) k)) by now rewrite Hvis.
    apply dd_getitem_insert. }
  rewrite Hvisits.
  rewrite (dd_getitem_present 0%nat (n + 1)%nat) by apply lookup_insert_eq.
  assert (H0 : v0 = default 0%Q (state_values a !! k))
    by (rewrite <- dd_getitem_value, Hv0; reflexivity).
  assert (H1 : v1 = v0).
  { replace v1 with (fst (dd_getitem 0%Q values0 k)) by now rewrite Hv1.
    replace values0 with (snd (dd_getitem 0%Q (state_values a) k)) by now rewrite Hv0.
    rewrite dd_getitem_value, dd_getitem_lookup. now rewrite H0. }
  assert (Hvalues : forall x, <[k := x]> values1 = <[k := x]> (state_values a)).
  { intros x.
    replace values1 with (snd (dd_getitem 0%Q values0 k)) by now rewrite Hv1.
    rewrite dd_getitem_insert.
    replace values0 with (snd (dd_getitem 0%Q (state_values a) k)) by now rewrite Hv0.
    apply dd_getitem_insert. }
  rewrite Hvalues. subst. reflexivity.
Qed.

Lemma learn_step_same (r : Q) (a : SimpleAIAgent) (k : string) :
  visits_of (learn_step r a k) k = (visits_of a k + 1)%nat /\
  value_of (learn_step r a k) k =
    (value_of a k + (r - value_of a k) / count_Q (visits_of a k + 1))%Q.
Proof.
  rewrite learn_step_spec.
  split; [unfold visits_of at 1 | unfold value_of at 1]; simpl;
    now rewrite lookup_insert_eq.
Qed.

Lemma learn_step_other (r : Q) (a : SimpleAIAgent) (k k' : string) :
  k' <> k ->
  visits_of (learn_step r a k) k' = visits_of a k' /\
  value_of (learn_step r a k) k' = value_of a k'.
Proof.
  intros Hne. rewrite learn_step_spec. unfold visits_of, value_of. simpl.
  now rewrite !lookup_insert_ne by congruence.
Qed.

Lemma learn_step_epsilon (r : Q) (a : SimpleAIAgent) (k : string) :
  epsilon (learn_step r a k) = epsilon a.
Proof. now rewrite learn_step_spec. Qed.

Lemma learn_cons (a : SimpleAIAgent) (k : string) (ks : list string) (r : Q) :
  learn a (k :: ks) r = learn (learn_step r a k) ks r.
Proof. reflexivity. Qed.

Lemma learn_app (a : SimpleAIAgent) (ks ks' : list string) (r : Q) :
  learn a (ks ++ ks') r = learn (learn a ks r) ks' r.
Proof. unfold learn. apply fold_left_app. Qed.

Lemma learn_epsilon (a : SimpleAIAgent) (ks : list string) (r : Q) :
  epsilon (learn a ks r) = epsilon a.
Proof.
  revert a. induction ks as [| k ks IH]; intros a; [reflexivity |].
  rewrite learn_cons, IH. apply learn_step_epsilon.
Qed.

(** The number of visits [learn] adds to a key is the number of times the
    key occurs in the trajectory. *)
Lemma learn_visits (a : SimpleAIAgent) (ks : list string) (r : Q) (k : string) :
  visits_of (learn a ks r) k = (visits_of a k + count_occ string_dec ks k)%nat.
Proof.
  revert a. induction ks as [| k0 ks IH]; intros a.
  - simpl. lia.
  - rewrite learn_cons, IH. simpl count_occ.
    destruct (string_dec k0 k) as [-> | Hne].
    + rewrite (proj1 (learn_step_same r a k)). lia.
    + now rewrite (proj1 (learn_step_other r a k0 k (not_eq_sym Hne))).
Qed.

Lemma learn_untouched (a : SimpleAIAgent) (ks : list string) (r : Q) (k : string) :
  ~ In k ks -> value_of (learn a ks r) k = value_of a k.
Proof.
  revert a. induction ks as [| k0 ks IH]; intros a Hk; [reflexivity |].
  rewrite learn_cons, IH by (intros Hin; apply Hk; now right).
  apply learn_step_other. intros ->. apply Hk. now left.
Qed.

(** ** [learn] on doubles

    First the rounding of the format, from its specification in
    [SpecFloat]; then what it makes of the update of [learn]. *)

Section Doubles.
Import PrimFloat SpecFloat FloatOps FloatAxioms.



















(** *** The operations of the update *)
















(** *** The update *)

Lemma learn64_step_spec (r : float) (a : Binary64.SimpleAIAgent) (k : string) :
  Binary64.learn_step r a k =
  Binary64.mkAgent (Binary64.epsilon a)
    (<[k := (Binary64.value_of a k + (r - Binary64.value_of a k) /
               Binary64.float_of_count (Binary64.visits_of a k + 1))%float]>
       (Binary64.state_values a))
    (<[k := (Binary64.visits_of a k + 1)%nat]> (Binary64.state_visits a)).
Proof.
  unfold Binary64.learn_step, Binary64.value_of, Binary64.visits_of.
  destruct (dd_getitem 0%nat (Binary64.state_visits a) k) as [n visits] eqn:Hvis.
  destruct (dd_getitem 0%float (Binary64.state_values a) k) as [v0 values0] eqn:Hv0.
  destruct (dd_getitem 0%float values0 k) as [v1 values1] eqn:Hv1.
  assert (Hn : n = default 0%nat (Binary64.state_visits a !! k))
    by (rewrite <- dd_getitem_value, Hvis; reflexivity).
  assert (Hvisits : <[k := (n + 1)%nat]> visits =
                    <[k := (n + 1)%nat]> (Binary64.state_visits a)).
  { replace visits with (snd (dd_getitem 0%nat (Binary64.state_visits a) k))
      by now rewrite Hvis.
    apply dd_getitem_insert. }
  rewrite Hvisits.
  rewrite (dd_getitem_present 0%nat (n + 1)%nat) by apply lookup_insert_eq.
  assert (H0 : v0 = default 0%float (Binary64.state_values a !! k))
    by (rewrite <- dd_getitem_value, Hv0; reflexivity).
  assert (H1 : v1 = v0).
  { replace v1 with (fst (dd_getitem 0%float values0 k)) by now rewrite Hv1.
    replace values0 with (snd (dd_getitem 0%float (Binary64.state_values a) k))
      by now rewrite Hv0.
    rewrite dd_getitem_value, dd_getitem_lookup. now rewrite H0. }
  assert (Hvalues : forall x, <[k := x]> values1 = <[k := x]> (Binary64.state_values a)).
  { intros x.
    replace values1 with (snd (dd_getitem 0%float values0 k)) by now rewrite Hv1.
    rewrite dd_getitem_insert.
    replace values0 with (snd (dd_getitem 0%float (Binary64.state_values a) k))
      by now rewrite Hv0.
    apply dd_getitem_insert. }
  rewrite Hvalues. subst. reflexivity.
Qed.



Lemma learn64_cons (a : Binary64.SimpleAIAgent) (k : string) (ks : list string) (r : float) :
  Binary64.learn a (k :: ks) r = Binary64.learn (Binary64.learn_step r a k) ks r.
Proof. reflexivity. Qed.



(** The rational model and the model on doubles keep the same keys and
    the same counts: they differ in the numbers stored, nowhere else. *)
Lemma learn_same_keys_and_counts (a : SimpleAIAgent) (b : Binary64.SimpleAIAgent)
    (ks : list string) (r : Q) (r' : float) :
  same_keys_and_counts a b ->
  same_keys_and_counts (learn a ks r) (Binary64.learn b ks r').
Proof.
  revert a b. induction ks as [| k ks IH]; intros a b Hab; [exact Hab |].
  rewrite learn_cons, learn64_cons. apply IH.
  destruct Hab as [Hvis Hdom]. unfold same_keys_and_counts.
  rewrite learn_step_spec, learn64_step_spec. simpl.
  unfold visits_of, Binary64.visits_of. rewrite Hvis.
  split; [reflexivity |]. now rewrite !dom_insert_L, Hdom.
Qed.




End Doubles.

(** ** The agent: [choose_action] *)

Section ChooseAction.
Context {R : Type} `{RandomSource R}.

Lemma choice_empty {A : Type} (s : R) : choice (@nil A) s = Raise IndexError.
Proof. reflexivity. Qed.

Lemma choice_nonempty {A : Type} (seq : list A) (s : R) :
  seq <> [] ->
  exists x s', choice seq s = Ret (x, s') /\ In x seq.
Proof.
  intros Hne. destruct seq as [| y seq]; [contradiction |].
  unfold choice.
  pose proof (randbelow_lt (length (y :: seq)) s ltac:(simpl; lia)) as Hlt.
  destruct (randbelow (length (y :: seq)) s) as [i s'] eqn:Hr. simpl fst in Hlt.
  destruct (lookup_lt_is_Some_2 (y :: seq) i Hlt) as [x Hx].
  rewrite (getitem_nat _ _ _ Hx). simpl.
  exists x, s'. split; [reflexivity |].
  change (In x (y :: seq)). apply list_elem_of_In, list_elem_of_lookup. now exists i.
Qed.

(** On moves that are cells of the board, the exploitation loop never
    raises; it looks up the key of each move in turn and returns moves it
    was given. *)
Lemma scan_spec (game : TicTacToeGame) (player : string) (moves : list Z)
    (values : gmap string Q) (best_value : option Q) (best_moves : list Z) :
  Forall (fun m => exists n : nat, m = Z.of_nat n /\ (n < length (board game))%nat) moves ->
  exists bv bm,
    scan game player moves values best_value best_moves =
      Ret (bv, bm, fold_left probe (map (next_state game player) moves) values) /\
    (forall m, In m bm -> In m best_moves \/ In m moves).
Proof.
  intros Hmoves. revert values best_value best_moves.
  induction Hmoves as [| move moves [n [-> Hn]] _ IH]; intros values bv bm.
  - exists bv, bm. split; [reflexivity | tauto].
  - simpl scan. rewrite setitem_nat by exact Hn. simpl bind.
    simpl map. simpl fold_left. unfold next_state at 2, probe at 2.
    rewrite Nat2Z.id.
    destruct (dd_getitem 0%Q values (String.concat "" (<[n:=player]> (board game))))
      as [value values'] eqn:Hget. simpl snd.
    destruct (gt_best value bv); [| destruct (eq_best value bv)].
    + destruct (IH values' (Some value) [Z.of_nat n]) as [bv' [bm' [Hs Hin]]].
      exists bv', bm'. split; [exact Hs |].
      intros m Hm. destruct (Hin m Hm) as [[<- | []] | Hm']; right; [now left | now right].
    + destruct (IH values' bv (bm ++ [Z.of_nat n])) as [bv' [bm' [Hs Hin]]].
      exists bv', bm'. split; [exact Hs |].
      intros m Hm. destruct (Hin m Hm) as [Hm' | Hm'].
      * apply in_app_or in Hm'. destruct Hm' as [Hm' | [<- | []]];
          [now left | right; now left].
      * right. now right.
    + destruct (IH values' bv bm) as [bv' [bm' [Hs Hin]]].
      exists bv', bm'. split; [exact Hs |].
      intros m Hm. destruct (Hin m Hm) as [Hm' | Hm']; [now left | right; now right].
Qed.

Lemma available_moves_cells (game : TicTacToeGame) :
  Forall (fun m => exists n : nat, m = Z.of_nat n /\ (n < length (board game))%nat)
    (available_moves game).
Proof.
  apply Forall_forall. intros m Hm. apply list_elem_of_In, available_moves_In in Hm.
  destruct Hm as [n [-> Hn]]. exists n. split; [reflexivity |].
  eapply lookup_lt_Some; eassumption.
Qed.

(** What [choose_action] returns, branch by branch. *)
Lemma choose_action_spec (a : SimpleAIAgent) (game : TicTacToeGame) (player : string)
    (s : R) :
  (available_moves game = [] -> choose_action a game player s = Raise IndexError) /\
  (available_moves game <> [] ->
   exists m s',
     In m (available_moves game) /\
     choose_action a game player s =
       Ret (m,
            if Qltb (fst (random s)) (epsilon a) then a
            else mkAgent (epsilon a)
                   (fold_left probe (probed_keys game player) (state_values a))
                   (state_visits a),
            s')).
Proof.
  unfold choose_action.
  destruct (random s) as [u s1] eqn:Hrand. simpl fst.
  destruct (scan_spec game player (available_moves game) (state_values a) None []
              (available_moves_cells game)) as [bv [bm [Hscan Hbm]]].
  split.
  - intros Hempty. destruct (Qltb u (epsilon a)).
    + now rewrite Hempty.
    + rewrite Hscan. simpl bind.
      assert (Hnil : bm = []).
      { destruct bm as [| m bm]; [reflexivity |].
        destruct (Hbm m (or_introl eq_refl)) as [[] | Hm]. rewrite Hempty in Hm. destruct Hm. }
      subst bm. now rewrite Hempty.
  - intros Hne. destruct (Qltb u (epsilon a)).
    + destruct (choice_nonempty (available_moves game) s1 Hne) as [m [s' [Hc Hm]]].
      exists m, s'. split; [exact Hm |]. now rewrite Hc.
    + rewrite Hscan. simpl bind. fold (probed_keys game player).
      destruct bm as [| m0 bm].
      * destruct (choice_nonempty (available_moves game) s1 Hne) as [m [s' [Hc Hm]]].
        exists m, s'. split; [exact Hm |]. now rewrite Hc.
      * destruct (choice_nonempty (m0 :: bm) s1 ltac:(discriminate)) as [m [s' [Hc Hm]]].
        exists m, s'. split.
        -- destruct (Hbm m Hm) as [[] | Hm']. exact Hm'.
        -- now rewrite Hc.
Qed.

(** C6: [choose_action] raises (an [IndexError], from [random.choice])
    when no move is available, in the exploration and in the exploitation
    branch alike; with at least one move available it returns, and the
    move it returns is one of the available ones. *)
Theorem choose_action_fails_iff_no_moves (a : SimpleAIAgent) (game : TicTacToeGame)
    (player : string) (s : R) :
  (available_moves game = [] -> choose_action a game player s = Raise IndexError) /\
  (available_moves game <> [] ->
   exists m a' s',
     choose_action a game player s = Ret (m, a', s') /\ In m (available_moves game)).
Proof.
  destruct (choose_action_spec a game player s) as [Hempty Hsome].
  split; [exact Hempty |].
  intros Hne. destruct (Hsome Hne) as [m [s' [Hm Hc]]].
  eexists m, _, s'. split; [exact Hc | exact Hm].
Qed.

Lemma probe_lookup (values : gmap string Q) (k k' : string) :
  probe values k !! k' =
  match values !! k' with
  | Some v => Some v
  | None => if bool_decide (k' = k) then Some 0%Q else None
  end.
Proof.
  unfold probe, dd_getitem. destruct (values !! k) as [v |] eqn:Hk; simpl.
  - destruct (values !! k') as [v' |] eqn:Hk'; [reflexivity |].
    case_bool_decide; [congruence | reflexivity].
  - destruct (decide (k' = k)) as [-> | Hne].
    + rewrite lookup_insert_eq, Hk. now rewrite bool_decide_eq_true_2.
    + rewrite lookup_insert_ne by congruence.
      destruct (values !! k'); [reflexivity |]. now rewrite bool_decide_eq_false_2.
Qed.

Lemma fold_probe_lookup (ks : list string) (values : gmap string Q) (k' : string) :
  fold_left probe ks values !! k' =
  match values !! k' with
  | Some v => Some v
  | None => if bool_decide (k' ∈ ks) then Some 0%Q else None
  end.
Proof.
  revert values. induction ks as [| k ks IH]; intros values; simpl fold_left.
  - destruct (values !! k'); [reflexivity |].
    rewrite bool_decide_eq_false_2; [reflexivity | apply not_elem_of_nil].
  - rewrite IH, probe_lookup. destruct (values !! k') as [v |]; [reflexivity |].
    destruct (decide (k' = k)) as [-> | Hk].
    + rewrite (bool_decide_eq_true_2 (k = k)) by reflexivity.
      rewrite bool_decide_eq_true_2 by apply list_elem_of_here. reflexivity.
    + rewrite (bool_decide_eq_false_2 (k' = k)) by exact Hk.
      destruct (decide (k' ∈ ks)) as [Hin | Hnin].
      * rewrite !bool_decide_eq_true_2;
          [reflexivity | now apply list_elem_of_further | exact Hin].
      * rewrite !bool_decide_eq_false_2; [reflexivity | | exact Hnin].
        intros Hin. apply elem_of_cons in Hin. destruct Hin; [congruence | contradiction].
Qed.

(** Over list objects the loop computes what it computes over values,
    and every object that existed before it, the session's board among
    them, is left as it was: the writes go to the copies. *)
Lemma store_scan_frame (g : TicTacToeGame) (player : string) (moves : list Z) :
  forall (h : Store.store) (board_ref : nat) (values : gmap string Q)
         (best_value : option Q) (best_moves : list Z),
    h !! board_ref = Some (board g) ->
    exists h',
      h ⊆ h' /\
      Store.scan h board_ref player moves values best_value best_moves =
      (let* x := scan g player moves values best_value best_moves in Ret (x, h')).
Proof.
  induction moves as [| move moves IH]; intros h board_ref values bv bm Href.
  - exists h. split; reflexivity.
  - cbn [Store.scan scan]. unfold Store.list_copy, Store.list_new.
    set (r := fresh (dom h)).
    assert (Hr : h !! r = None) by (apply not_elem_of_dom, is_fresh).
    assert (Hne : r <> board_ref) by (intros ->; congruence).
    rewrite (lookup_total_correct _ _ _ Href).
    unfold Store.list_setitem. rewrite lookup_total_insert_eq.
    destruct (setitem (board g) move player) as [items | e |] eqn:Hset; cbn [bind].
    + unfold Store.list_join. rewrite insert_insert_eq, lookup_total_insert_eq.
      assert (Hsub : h ⊆ <[r := items]> h) by now apply insert_subseteq.
      assert (Href' : <[r := items]> h !! board_ref = Some (board g))
        by now rewrite lookup_insert_ne.
      destruct (dd_getitem 0%Q values (String.concat "" items)) as [value values'].
      destruct (gt_best value bv); [| destruct (eq_best value bv)].
      * destruct (IH _ board_ref values' (Some value) [move] Href') as [h' [Hh' Hs]].
        exists h'. split; [now transitivity (<[r := items]> h) | exact Hs].
      * destruct (IH _ board_ref values' bv (bm ++ [move]) Href') as [h' [Hh' Hs]].
        exists h'. split; [now transitivity (<[r := items]> h) | exact Hs].
      * destruct (IH _ board_ref values' bv bm Href') as [h' [Hh' Hs]].
        exists h'. split; [now transitivity (<[r := items]> h) | exact Hs].
    + exists h. split; reflexivity.
    + exists h. split; reflexivity.
Qed.

(** C2, as the code has it: the exploitation branch leaves the visit
    counts and epsilon as they were and changes no value a key reads as
    (absent keys read 0), but each probed key that was absent is entered
    into the value table with value 0; keys that were present keep their
    entry, and no other key is entered. Over list objects the scan writes
    only to the copies it allocates: every object of the store, the
    session's board among them, is as before. *)
Theorem exploitation_probe (a : SimpleAIAgent) (game : TicTacToeGame) (player : string)
    (s : R) (m : Z) (a' : SimpleAIAgent) (s' : R) :
  Qltb (fst (random s)) (epsilon a) = false ->
  choose_action a game player s = Ret (m, a', s') ->
  state_visits a' = state_visits a /\
  epsilon a' = epsilon a /\
  (forall k, value_of a' k = value_of a k) /\
  (forall k,
     state_values a' !! k =
     match state_values a !! k with
     | Some v => Some v
     | None => if bool_decide (k ∈ probed_keys game player) then Some 0%Q else None
     end) /\
  (forall (h : Store.store) (board_ref : nat),
     h !! board_ref = Some (board game) ->
     exists h',
       h ⊆ h' /\ h' !! board_ref = Some (board game) /\
       Store.scan h board_ref player (available_moves game) (state_values a) None [] =
       (let* x := scan game player (available_moves game) (state_values a) None [] in
        Ret (x, h'))).
Proof.
  intros Hu Hc.
  destruct (choose_action_spec a game player s) as [Hempty Hsome].
  destruct (available_moves game) as [| m0 ms] eqn:Hav.
  - rewrite Hempty in Hc by reflexivity. discriminate.
  - destruct (Hsome ltac:(discriminate)) as [m1 [s1 [_ Hc1]]].
    rewrite Hc1, Hu in Hc. inversion Hc; subst m1 a' s1. simpl.
    split; [reflexivity |]. split; [reflexivity |].
    split; [| split].
    + intros k. unfold value_of. simpl. rewrite fold_probe_lookup.
      destruct (state_values a !! k); [reflexivity |].
      now case_bool_decide.
    + intros k. apply fold_probe_lookup.
    + intros h board_ref Href.
      destruct (store_scan_frame game player (m0 :: ms) h board_ref (state_values a)
                  None [] Href) as [h' [Hsub Hs]].
      exists h'. split; [exact Hsub |]. split; [| exact Hs].
      eapply lookup_weaken; eassumption.
Qed.

End ChooseAction.

(** C6 with the example generator: a full board raises, the fresh board
    yields one of its nine moves. *)
Lemma choose_action_fails_iff_no_moves_witness :
  let full := mkGame ["X"; "O"; "X"; "X"; "O"; "O"; "O"; "X"; "X"] "X" None true in
  choose_action (Agent.init (1 # 10)) full "X" 0%nat = Raise IndexError /\
  exists m a' s',
    choose_action (Agent.init (1 # 10)) Game.init "X" 0%nat = Ret (m, a', s') /\
    In m (available_moves Game.init).
Proof.
  split.
  - apply (proj1 (choose_action_fails_iff_no_moves (Agent.init (1 # 10))
             (mkGame ["X"; "O"; "X"; "X"; "O"; "O"; "O"; "X"; "X"] "X" None true)
             "X" 0%nat)).
    reflexivity.
  - apply (proj2 (choose_action_fails_iff_no_moves (Agent.init (1 # 10)) Game.init
             "X" 0%nat)).
    discriminate.
Defined.

(** C2 as stated fails: on a fresh agent with epsilon 0 and the fresh
    board, the call takes the exploitation branch and returns an agent
    whose value table, empty before, holds the nine probed keys. *)
Lemma exploitation_probe_creates_entries :
  let a := Agent.init 0 in
  Qltb (fst (random 0%nat)) (epsilon a) = false /\
  exists m a' s',
    choose_action a Game.init "X" 0%nat = Ret (m, a', s') /\
    state_values a !! "X        " = None /\
    state_values a' !! "X        " = Some 0%Q /\
    size (state_values a) = 0%nat /\
    size (state_values a') = 9%nat /\
    state_values a' <> state_values a.
Proof.
  cbv zeta. split; [reflexivity |].
  destruct (proj2 (choose_action_spec (Agent.init 0) Game.init "X" 0%nat)
              ltac:(discriminate)) as [m [s' [_ Hc]]].
  eexists m, _, s'. split; [exact Hc |].
  change (Qltb (fst (random 0%nat)) (epsilon (Agent.init 0))) with false.
  cbv iota. cbn [state_values].
  assert (Hk : fold_left probe (probed_keys Game.init "X") (state_values (Agent.init 0))
               !! "X        " = Some 0%Q) by (vm_compute; reflexivity).
  split; [reflexivity |]. split; [exact Hk |]. split; [reflexivity |].
  split; [vm_compute; reflexivity |].
  intros Heq. rewrite Heq in Hk. discriminate.
Qed.

(** C2 on the same call: the counts are untouched and every key still
    reads the value it read before. *)
Lemma exploitation_probe_witness :
  let a := Agent.init 0 in
  exists m a' s',
    choose_action a Game.init "X" 0%nat = Ret (m, a', s') /\
    state_visits a' = state_visits a /\
    (forall k, value_of a' k = value_of a k).
Proof.
  cbv zeta.
  destruct (proj2 (choose_action_spec (Agent.init 0) Game.init "X" 0%nat)
              ltac:(discriminate)) as [m [s' [_ Hc]]].
  eexists m, _, s'. split; [exact Hc |].
  pose proof (exploitation_probe (Agent.init 0) Game.init "X" 0%nat m _ s'
                eq_refl Hc) as [Hv [_ [Hval _]]].
  split; [exact Hv | exact Hval].
Defined.

(** ** The driver: one episode *)

Lemma blank_count_insert (b : list string) (n : nat) (m : string) :
  b !! n = Some EMPTY -> m <> EMPTY ->
  (blank_count (<[n := m]> b) + 1)%nat = blank_count b.
Proof.
  unfold blank_count. revert n. induction b as [| c b IH]; intros n Hn Hm.
  - discriminate.
  - destruct n as [| n]; simpl in *.
    + inversion Hn; subst c. rewrite String.eqb_refl.
      destruct (String.eqb_spec m EMPTY) as [-> | _]; [contradiction |]. simpl. lia.
    + destruct (String.eqb c EMPTY); simpl; rewrite <- (IH n Hn Hm); lia.
Qed.

Lemma after_move_not_blank_key (g : TicTacToeGame) (n : nat) :
  game_inv g -> board g !! n = Some EMPTY ->
  get_state (after_move g n (current_player g)) <> blank_key.
Proof.
  intros Hinv Hn Hkey.
  pose proof (game_inv_after_move g n Hinv Hn) as [[_ Hcells] _ _ _ _ _].
  apply (f_equal board_of_key) in Hkey. unfold get_state in Hkey.
  rewrite (proj1 (board_of_key_concat _ Hcells)), after_move_board in Hkey.
  assert (Hl : <[n := current_player g]> (board g) !! n = Some (current_player g)).
  { apply list_lookup_insert_eq. eapply lookup_lt_Some; eassumption. }
  rewrite Hkey in Hl.
  assert (Hb : board_of_key blank_key !! n = Some EMPTY).
  { apply lookup_lt_Some in Hn. destruct Hinv as [[Hlen _] _ _ _ _ _]. rewrite Hlen in Hn.
    do 9 (destruct n as [| n]; [reflexivity |]). lia. }
  rewrite Hb in Hl. destruct (inv_turn _ Hinv) as [Hx | Ho];
    [rewrite Hx in Hl | rewrite Ho in Hl]; discriminate.
Qed.

Lemma count_occ_snoc (l : list string) (x k : string) :
  count_occ string_dec (l ++ [x]) k =
  (count_occ string_dec l k + if decide (x = k) then 1 else 0)%nat.
Proof.
  rewrite count_occ_app. simpl.
  destruct (string_dec x k); destruct (decide (x = k)); congruence || lia.
Qed.

Section Episode.
Context {R : Type} `{RandomSource R}.

(** From a session of legal play with enough fuel for its blank cells the
    loop of an episode ends, without raising, in a finished session; the
    agent's visit counts are as before; and the blank board's key is
    recorded exactly when the loop starts on the blank board. *)
Lemma play_loop_spec (fuel : nat) :
  forall (a : SimpleAIAgent) (g : TicTacToeGame) (xs os : list string) (s : R),
    game_inv g -> (blank_count (board g) <= fuel)%nat ->
    exists a' g' xs' os' s',
      play_loop fuel a g xs os s = Ret (a', g', (xs', os'), s') /\
      game_over g' = true /\ game_inv g' /\
      state_visits a' = state_visits a /\
      (count_occ string_dec xs' blank_key + count_occ string_dec os' blank_key =
       count_occ string_dec xs blank_key + count_occ string_dec os blank_key +
       fresh_count g)%nat.
Proof.
  induction fuel as [| fuel IH]; intros a g xs os s Hinv Hfuel.
  - destruct (game_over g) eqn:Hover.
    + exists a, g, xs, os, s. simpl play_loop. rewrite Hover.
      refine (conj eq_refl (conj eq_refl (conj Hinv (conj eq_refl _)))).
      unfold fresh_count. rewrite Hover. lia.
    + destruct (inv_running _ Hinv Hover) as [_ [n Hn]].
      pose proof (blank_count_insert (board g) n MARK_X Hn ltac:(discriminate)). lia.
  - destruct (game_over g) eqn:Hover.
    + exists a, g, xs, os, s. simpl play_loop. rewrite Hover.
      refine (conj eq_refl (conj eq_refl (conj Hinv (conj eq_refl _)))).
      unfold fresh_count. rewrite Hover. lia.
    + destruct (inv_running _ Hinv Hover) as [_ [n Hn]].
      assert (Hne : available_moves g <> []).
      { intros Hnil.
        assert (Hin : In (Z.of_nat n) (available_moves g))
          by (apply available_moves_In; now exists n).
        rewrite Hnil in Hin. destruct Hin. }
      destruct (choose_action_spec a g (current_player g) s) as [_ Hsome].
      destruct (Hsome Hne) as [m [s1 [Hm Hc]]].
      set (a1 := if Qltb (fst (random s)) (epsilon a) then a
                 else mkAgent (epsilon a)
                        (fold_left probe (probed_keys g (current_player g)) (state_values a))
                        (state_visits a)) in *.
      assert (Ha1 : state_visits a1 = state_visits a)
        by (unfold a1; destruct (Qltb _ _); reflexivity).
      pose proof (make_move_available g m None (proj1 (inv_board _ Hinv)) Hm) as Hmove.
      simpl mark_of in Hmove.
      apply available_moves_In in Hm. destruct Hm as [n' [-> Hn']].
      rewrite Nat2Z.id in Hmove.
      set (g1 := after_move g n' (current_player g)) in *.
      assert (Hinv1 : game_inv g1) by now apply game_inv_after_move.
      assert (Hfuel1 : (blank_count (board g1) <= fuel)%nat).
      { unfold g1. rewrite after_move_board.
        assert (Hmark : current_player g <> EMPTY)
          by (destruct (inv_turn _ Hinv) as [-> | ->]; discriminate).
        pose proof (blank_count_insert (board g) n' _ Hn' Hmark). lia. }
      assert (Hfresh1 : fresh_count g1 = 0%nat).
      { unfold fresh_count. destruct (game_over g1); [reflexivity |].
        destruct (decide (get_state g1 = blank_key)) as [Hk | _]; [| reflexivity].
        now apply after_move_not_blank_key in Hk. }
      simpl play_loop. rewrite Hover.
      destruct (String.eqb (current_player g) MARK_X).
      * rewrite Hc. simpl bind. rewrite Hmove. simpl bind.
        destruct (IH a1 g1 (xs ++ [get_state g]) os s1 Hinv1 Hfuel1)
          as [a' [g' [xs' [os' [s' [Hp [Hov [Hi [Hv Hcount]]]]]]]]].
        exists a', g', xs', os', s'.
        refine (conj Hp (conj Hov (conj Hi (conj _ _)))); [congruence |].
        rewrite Hcount, Hfresh1, count_occ_snoc. unfold fresh_count. rewrite Hover.
        destruct (decide (get_state g = blank_key)); lia.
      * rewrite Hc. simpl bind. rewrite Hmove. simpl bind.
        destruct (IH a1 g1 xs (os ++ [get_state g]) s1 Hinv1 Hfuel1)
          as [a' [g' [xs' [os' [s' [Hp [Hov [Hi [Hv Hcount]]]]]]]]].
        exists a', g', xs', os', s'.
        refine (conj Hp (conj Hov (conj Hi (conj _ _)))); [congruence |].
        rewrite Hcount, Hfresh1, count_occ_snoc. unfold fresh_count. rewrite Hover.
        destruct (decide (get_state g = blank_key)); lia.
Qed.

(** One episode with fuel for the nine cells returns, leaves a finished
    session, and adds exactly one visit to the blank board's key. *)
Lemma episode_spec (fuel : nat) (a : SimpleAIAgent) (g : TicTacToeGame) (s : R) :
  (9 <= fuel)%nat ->
  exists a' g' s',
    episode fuel a g s = Ret (a', g', s') /\
    game_over g' = true /\
    visits_of a' blank_key = (visits_of a blank_key + 1)%nat.
Proof.
  intros Hfuel. unfold episode.
  destruct (reset g) as [key g0] eqn:Hreset.
  assert (Hg0 : g0 = snd (reset g)) by now rewrite Hreset.
  destruct (play_loop_spec fuel a g0 [] [] s) as
    [a1 [g1 [xs [os [s1 [Hp [Hov [Hi [Hv Hcount]]]]]]]]].
  { subst g0. apply game_inv_reset. }
  { subst g0. exact Hfuel. }
  rewrite Hp. simpl bind.
  assert (Hone : (count_occ string_dec xs blank_key +
                  count_occ string_dec os blank_key = 1)%nat).
  { rewrite Hcount. subst g0. reflexivity. }
  assert (Hvis : forall r1 r2,
            visits_of (learn (learn a1 xs r1) os r2) blank_key =
            (visits_of a blank_key + 1)%nat).
  { intros r1 r2. rewrite !learn_visits. unfold visits_of at 1. rewrite Hv.
    fold (visits_of a blank_key). lia. }
  eexists _, g1, s1. split; [reflexivity |]. split; [exact Hov |].
  destruct (winner_is g1 MARK_X); [apply Hvis |].
  destruct (winner_is g1 MARK_O); apply Hvis.
Qed.

(** The loop over the range runs [episodes_run] episodes. *)
Lemma train_loop_spec (fuel : nat) (range : list nat) :
  (9 <= fuel)%nat ->
  forall (a : SimpleAIAgent) (g : TicTacToeGame) (s : R),
  exists a' s',
    train_loop fuel range a g s = Ret (a', s') /\
    visits_of a' blank_key = (visits_of a blank_key + episodes_run range)%nat.
Proof.
  intros Hfuel. induction range as [| ep range IH]; intros a g s.
  - exists a, s. split; [reflexivity | simpl; lia].
  - destruct (episode_spec fuel a g s Hfuel) as [a1 [g1 [s1 [He [_ Hv]]]]].
    cbn [train_loop]. rewrite He. cbn [bind episodes_run].
    destruct ((ep + 1) mod 1000 =? 0)%nat.
    + exists a1, s1. split; [reflexivity | exact Hv].
    + destruct (IH a1 g1 s1) as [a' [s' [Ht Hv']]].
      exists a', s'. split; [exact Ht |]. rewrite Hv', Hv. lia.
Qed.

End Episode.

Lemma progress_check (i : nat) :
  (i < 1000)%nat -> ((i + 1) mod 1000 =? 0)%nat = (i + 1 =? 1000)%nat.
Proof.
  intros Hi. destruct (Nat.eqb_spec (i + 1) 1000) as [Heq | Hne].
  - rewrite Heq, Nat.Div0.mod_same. reflexivity.
  - rewrite Nat.mod_small by lia. apply Nat.eqb_neq. lia.
Qed.

(** Over [range(n)] the loop runs [n] episodes up to 1000, and 1000 from
    there on. *)
Lemma episodes_run_seq (n i : nat) :
  (i < 1000)%nat -> episodes_run (seq i n) = Nat.min n (1000 - i).
Proof.
  revert i. induction n as [| n IH]; intros i Hi; [reflexivity |].
  cbn [seq episodes_run]. rewrite progress_check by exact Hi.
  destruct (Nat.eqb_spec (i + 1) 1000) as [Heq | Hne].
  - lia.
  - rewrite IH by lia. lia.
Qed.

Section Train.
Context {R : Type} `{RandomSource R}.

(** [train_agent] returns, and the episodes it has run by then number
    [min episodes 1000]: each adds one visit to the blank board's key. *)
Lemma train_agent_runs (fuel : nat) (a : SimpleAIAgent) (episodes : nat) (s : R) :
  (9 <= fuel)%nat ->
  exists a' s',
    train_agent fuel a episodes s = Ret (a', s') /\
    visits_of a' blank_key = (visits_of a blank_key + Nat.min episodes 1000)%nat.
Proof.
  intros Hfuel. unfold train_agent.
  destruct (train_loop_spec fuel (seq 0 episodes) Hfuel a Game.init s) as [a' [s' [Ht Hv]]].
  exists a', s'. split; [exact Ht |].
  rewrite Hv, episodes_run_seq by lia. now rewrite Nat.sub_0_r.
Qed.

(** C1 fails on the code: asked for 1001 episodes, [train_agent] (with
    fuel for the nine moves an episode can take) returns after the 1000th;
    the blank board's key, visited once per episode, has gained 1000
    visits and not 1001. The same happens at the 10000 episodes that
    [main] asks for. *)
Theorem train_agent_stops_after_1000 (a : SimpleAIAgent) (s : R) :
  (exists a' s',
     train_agent 9 a 1001 s = Ret (a', s') /\
     visits_of a' blank_key = (visits_of a blank_key + 1000)%nat /\
     visits_of a' blank_key <> (visits_of a blank_key + 1001)%nat) /\
  (exists a' s',
     train_agent 9 a 10000 s = Ret (a', s') /\
     visits_of a' blank_key = (visits_of a blank_key + 1000)%nat).
Proof.
  split.
  - destruct (train_agent_runs 9 a 1001 s (le_n 9)) as [a' [s' [Ht Hv]]].
    exists a', s'. split; [exact Ht |].
    replace (Nat.min 1001 1000) with 1000%nat in Hv by (symmetry; apply Nat.min_r; lia).
    split; [exact Hv | lia].
  - destruct (train_agent_runs 9 a 10000 s (le_n 9)) as [a' [s' [Ht Hv]]].
    exists a', s'. split; [exact Ht |].
    replace (Nat.min 10000 1000) with 1000%nat in Hv by (vm_compute; reflexivity).
    exact Hv.
Qed.

End Train.

(** * Further properties of the engine *)

Lemma filter_keeps_all {A : Type} (f : A -> bool) (l : list A) :
  Forall (fun x => f x = true) l -> List.filter f l = l.
Proof.
  induction 1 as [| x l Hx _ IH]; simpl; [reflexivity |].
  now rewrite Hx, IH.
Qed.

Lemma available_from_cons (s : Z) (c : string) (l : list string) :
  available_from s (c :: l) =
  (if String.eqb c EMPTY then [s] else []) ++ available_from (s + 1) l.
Proof.
  unfold available_from. simpl. destruct (String.eqb c EMPTY); reflexivity.
Qed.

Lemma available_from_above (s : Z) (l : list string) :
  Forall (fun i => s <= i) (available_from s l).
Proof. apply available_from_sorted. Qed.

(** Writing a mark over a cell removes that position, and only that one,
    from the blank positions. *)
Lemma available_from_insert (l : list string) (s : Z) (n : nat) (m : string) :
  m <> EMPTY -> (n < length l)%nat ->
  available_from s (<[n := m]> l) =
  List.filter (fun i => negb (i =? s + Z.of_nat n)) (available_from s l).
Proof.
  intros Hm. revert s n. induction l as [| c l IH]; intros s n Hn; simpl in Hn; [lia |].
  assert (Hrest : forall t, t <= s ->
            List.filter (fun i => negb (i =? t)) (available_from (s + 1) l) =
            available_from (s + 1) l).
  { intros t Ht. apply filter_keeps_all.
    eapply List.Forall_impl; [| apply available_from_above].
    simpl. intros i Hi. apply negb_true_iff, Z.eqb_neq. lia. }
  destruct n as [| n].
  - change (<[0%nat := m]> (c :: l)) with (m :: l).
    rewrite !available_from_cons.
    destruct (String.eqb_spec m EMPTY) as [Heq | _]; [contradiction |].
    rewrite List.filter_app, Hrest by lia.
    destruct (String.eqb c EMPTY); cbn [List.filter app]; [| reflexivity].
    replace (s =? s + Z.of_nat 0) with true by (symmetry; apply Z.eqb_eq; lia).
    reflexivity.
  - change (<[S n := m]> (c :: l)) with (c :: <[n := m]> l).
    rewrite !available_from_cons, List.filter_app, IH by lia.
    replace (s + 1 + Z.of_nat n) with (s + Z.of_nat (S n)) by lia.
    f_equal. destruct (String.eqb c EMPTY); cbn [List.filter]; [| reflexivity].
    replace (s =? s + Z.of_nat (S n)) with false by (symmetry; apply Z.eqb_neq; lia).
    reflexivity.
Qed.

Lemma available_from_length (s : Z) (l : list string) :
  length (available_from s l) = blank_count l.
Proof.
  unfold blank_count. revert s. induction l as [| c l IH]; intros s; [reflexivity |].
  rewrite available_from_cons, length_app, IH. simpl.
  destruct (String.eqb c EMPTY); reflexivity.
Qed.

(** X1: a move on an available cell with a non-blank mark succeeds and
    takes exactly that position out of [available_moves]: the list shrinks
    by one, the position is gone, and no position comes back. *)
Theorem legal_move_consumes_cell (g : TicTacToeGame) (position : Z)
    (player : option string) :
  length (board g) = 9%nat ->
  In position (available_moves g) ->
  mark_of g player <> EMPTY ->
  exists g',
    make_move g position player = Ret (true, g') /\
    available_moves g' =
      List.filter (fun i => negb (i =? position)) (available_moves g) /\
    (length (available_moves g') + 1 = length (available_moves g))%nat /\
    ~ In position (available_moves g') /\
    (forall i, In i (available_moves g') -> In i (available_moves g)).
Proof.
  intros Hlen Hin Hmark.
  exists (after_move g (Z.to_nat position) (mark_of g player)).
  split; [now apply make_move_available |].
  apply available_moves_In in Hin. destruct Hin as [n [-> Hn]]. rewrite Nat2Z.id.
  assert (Hlt : (n < length (board g))%nat) by (eapply lookup_lt_Some; eassumption).
  assert (Hav : available_moves (after_move g n (mark_of g player)) =
                List.filter (fun i => negb (i =? Z.of_nat n)) (available_moves g)).
  { change (available_moves (after_move g n (mark_of g player)))
      with (available_from 0 (board (after_move g n (mark_of g player)))).
    rewrite after_move_board, available_from_insert by assumption. reflexivity. }
  split; [exact Hav |]. split; [| split].
  - change (available_moves (after_move g n (mark_of g player)))
      with (available_from 0 (board (after_move g n (mark_of g player)))).
    change (available_moves g) with (available_from 0 (board g)).
    rewrite !available_from_length, after_move_board.
    now apply blank_count_insert.
  - rewrite Hav. intros Hin. apply filter_In in Hin. destruct Hin as [_ Hneq].
    rewrite Z.eqb_refl in Hneq. discriminate.
  - intros i. rewrite Hav. intros Hi. now apply filter_In in Hi.
Qed.

(** X1 on the first move of a game. *)
Lemma legal_move_consumes_cell_witness :
  exists g',
    make_move Game.init 4 None = Ret (true, g') /\
    available_moves g' = [0; 1; 2; 3; 5; 6; 7; 8].
Proof.
  destruct (legal_move_consumes_cell Game.init 4 None) as [g' [Hm [Hav _]]].
  - reflexivity.
  - vm_compute. tauto.
  - discriminate.
  - exists g'. split; [exact Hm | exact Hav].
Defined.

Lemma blank_count_zero (b : list string) :
  blank_count b = 0%nat <-> existsb (String.eqb EMPTY) b = false.
Proof.
  unfold blank_count. induction b as [| c b IH]; [simpl; tauto |].
  cbn [List.filter existsb]. rewrite (String.eqb_sym EMPTY c).
  destruct (String.eqb c EMPTY); cbn [length orb].
  - split; discriminate.
  - exact IH.
Qed.

Lemma available_moves_nil (g : TicTacToeGame) :
  available_moves g = [] <-> blank_count (board g) = 0%nat.
Proof.
  rewrite <- (available_from_length 0 (board g)).
  change (available_from 0 (board g)) with (available_moves g).
  destruct (available_moves g); simpl; split; congruence.
Qed.

(** In play made in turn the game is over exactly when a winner is set
    or no cell is blank. *)
Lemma reachable_over_iff (g : TicTacToeGame) :
  reachable g ->
  (game_over g = true <-> winner g <> None \/ blank_count (board g) = 0%nat).
Proof.
  induction 1 as [g | g position player g' Hr IH Hin Hpl Hmove].
  - simpl. split; [discriminate |]. intros [Hw | Hb]; [congruence | discriminate].
  - pose proof (reachable_inv g Hr) as Hinv.
    rewrite make_move_available in Hmove by (assumption || apply (inv_board _ Hinv)).
    inversion Hmove; subst g'. clear Hmove.
    assert (Hmark : mark_of g player = current_player g)
      by (destruct Hpl as [-> | ->]; reflexivity).
    rewrite Hmark. apply available_moves_In in Hin.
    destruct Hin as [n [-> Hn]]. rewrite Nat2Z.id.
    assert (Hcp : current_player g <> EMPTY)
      by (destruct (inv_turn _ Hinv) as [-> | ->]; discriminate).
    pose proof (blank_count_insert (board g) n _ Hn Hcp) as Hcount.
    unfold after_move.
    destruct (has_lineb (<[n := current_player g]> (board g)) (current_player g)) eqn:Hline.
    + simpl. split; [intros _; left; discriminate | reflexivity].
    + assert (Hw : winner g = None).
      { destruct (winner g) as [w |] eqn:Hw; [| reflexivity].
        destruct (inv_winner _ Hinv w Hw) as [-> [Hl _]].
        apply (has_lineb_insert_same _ n) in Hl. congruence. }
      unfold check_tie. cbn [board winner]. rewrite Hw.
      destruct (existsb (String.eqb EMPTY) (<[n := current_player g]> (board g)))
        eqn:Hblank; cbn [negb andb game_over winner board].
      * split.
        -- intros Hover. apply IH in Hover. destruct Hover as [Hw' | Hb]; [congruence | lia].
        -- intros [Hw' | Hb]; [congruence |].
           apply blank_count_zero in Hb. congruence.
      * split; [| reflexivity]. intros _. right. now apply blank_count_zero.
Qed.

(** X2: in play made in turn, [game_over] holds exactly when a winner is
    set or no move is available; and a finished game without a winner is
    a tie: the board is full and neither mark holds a line. *)
Theorem game_over_iff_won_or_full (g : TicTacToeGame) :
  reachable g ->
  (game_over g = true <-> winner g <> None \/ available_moves g = []) /\
  (game_over g = true -> winner g = None ->
   available_moves g = [] /\
   check_win g MARK_X = Ret false /\ check_win g MARK_O = Ret false).
Proof.
  intros Hr. pose proof (reachable_over_iff g Hr) as Hover.
  pose proof (reachable_inv g Hr) as Hinv.
  rewrite available_moves_nil. split; [exact Hover |].
  intros Hgo Hw. apply Hover in Hgo. destruct Hgo as [Hw' | Hb]; [congruence |].
  split; [exact Hb |].
  rewrite !check_win_spec by apply (inv_board _ Hinv).
  pose proof (inv_other _ Hinv) as Ho. pose proof (inv_no_winner _ Hinv Hw) as Hc.
  destruct (inv_turn _ Hinv) as [Hx | Hx]; rewrite Hx in Ho, Hc;
    (split; f_equal; assumption).
Qed.

(** X2 at the end of the top-row scenario: the game is over because a
    winner is set, with four moves still available. *)
Lemma game_over_iff_won_or_full_witness :
  let g := mkGame ["X"; "X"; "X"; "O"; "O"; " "; " "; " "; " "] "X" (Some MARK_X) true in
  game_over g = true <-> winner g <> None \/ available_moves g = [].
Proof.
  apply (proj1 (game_over_iff_won_or_full _ top_row_reachable)).
Defined.

Lemma count_occ_insert (b : list string) (n : nat) (c m k : string) :
  b !! n = Some c ->
  (count_occ string_dec (<[n := m]> b) k + (if decide (c = k) then 1 else 0) =
   count_occ string_dec b k + (if decide (m = k) then 1 else 0))%nat.
Proof.
  revert n. induction b as [| x b IH]; intros n Hn; [discriminate |].
  destruct n as [| n]; simpl in *.
  - inversion Hn; subst x.
    destruct (string_dec m k), (string_dec c k), (decide (c = k)), (decide (m = k));
      congruence || lia.
  - specialize (IH n Hn). destruct (string_dec x k); lia.
Qed.

Lemma cells_partition (b : list string) :
  Forall cell_ok b ->
  (count_mark b MARK_X + count_mark b MARK_O + blank_count b = length b)%nat.
Proof.
  unfold count_mark, blank_count.
  induction 1 as [| c b Hc _ IH]; [reflexivity |].
  destruct Hc as [-> | [-> | ->]]; simpl in *; lia.
Qed.

(** While a game played in turn is running, the mark counts tell whose
    turn it is. *)
Lemma reachable_turn (g : TicTacToeGame) :
  reachable g -> game_over g = false ->
  (current_player g = MARK_X /\
   count_mark (board g) MARK_X = count_mark (board g) MARK_O) \/
  (current_player g = MARK_O /\
   count_mark (board g) MARK_X = (count_mark (board g) MARK_O + 1)%nat).
Proof.
  induction 1 as [g | g position player g' Hr IH Hin Hpl Hmove].
  - intros _. left. split; reflexivity.
  - pose proof (reachable_inv g Hr) as Hinv.
    rewrite make_move_available in Hmove by (assumption || apply (inv_board _ Hinv)).
    inversion Hmove; subst g'. clear Hmove.
    assert (Hmark : mark_of g player = current_player g)
      by (destruct Hpl as [-> | ->]; reflexivity).
    rewrite Hmark. apply available_moves_In in Hin.
    destruct Hin as [n [-> Hn]]. rewrite Nat2Z.id.
    unfold after_move.
    destruct (has_lineb _ _); [discriminate |].
    destruct (check_tie _); [discriminate |].
    cbn [game_over board current_player]. intros Hover.
    pose proof (count_occ_insert (board g) n EMPTY (current_player g) MARK_X Hn) as HX.
    pose proof (count_occ_insert (board g) n EMPTY (current_player g) MARK_O Hn) as HO.
    unfold count_mark.
    destruct (IH Hover) as [[Hcp Hc] | [Hcp Hc]]; unfold count_mark in Hc;
      rewrite Hcp in *; [right | left]; (split; [reflexivity |]);
      repeat match goal with
             | H : context [decide ?P] |- _ =>
                 destruct (decide P); try discriminate; try congruence
             end; lia.
Qed.

(** X3: while a game played in turn is running, X is to move exactly when
    the marks are level and O exactly when X is one ahead; and on every
    session of such play the X cells, the O cells and the available moves
    add up to the nine cells. *)
Theorem turn_follows_mark_counts (g : TicTacToeGame) :
  reachable g ->
  (count_mark (board g) MARK_X + count_mark (board g) MARK_O +
   length (available_moves g) = 9)%nat /\
  (game_over g = false ->
   (current_player g = MARK_X /\
    count_mark (board g) MARK_X = count_mark (board g) MARK_O) \/
   (current_player g = MARK_O /\
    count_mark (board g) MARK_X = (count_mark (board g) MARK_O + 1)%nat)).
Proof.
  intros Hr. split; [| now apply reachable_turn].
  destruct (inv_board _ (reachable_inv g Hr)) as [Hlen Hcells].
  change (available_moves g) with (available_from 0 (board g)).
  rewrite available_from_length, <- Hlen. now apply cells_partition.
Qed.

(** X3 after two moves: one X, one O, seven moves left, X to move. *)
Lemma turn_follows_mark_counts_witness :
  let g := mkGame ["X"; " "; " "; " "; "O"; " "; " "; " "; " "] "X" None false in
  reachable g /\
  (count_mark (board g) MARK_X + count_mark (board g) MARK_O +
   length (available_moves g) = 9)%nat.
Proof.
  assert (Hr : reachable
            (mkGame ["X"; " "; " "; " "; "O"; " "; " "; " "; " "] "X" None false)).
  { apply (legal_play_reachable (snd (reset Game.init)) [0; 4]).
    - apply reachable_reset.
    - vm_compute. reflexivity. }
  split; [exact Hr | apply (proj1 (turn_follows_mark_counts _ Hr))].
Defined.

(** * Further properties of the agent *)

(** X4: [learn] counts every visit. Over any sequence of [learn] calls
    a key's visit count grows by the number of times the key occurs in
    the trajectories, whatever the rewards; so learning the same
    trajectory a second time counts its keys a second time. *)
Theorem learn_counts_every_visit (a : SimpleAIAgent) (passes : list (list string * Q))
    (k : string) :
  visits_of (learn_all a passes) k = (visits_of a k + occurrences passes k)%nat /\
  forall ks r,
    visits_of (learn (learn a ks r) ks r) k =
      (visits_of a k + 2 * count_occ string_dec ks k)%nat.
Proof.
  split.
  - revert a. induction passes as [| [ks r] passes IH]; intros a.
    + simpl. lia.
    + change (learn_all a ((ks, r) :: passes)) with (learn_all (learn a ks r) passes).
      rewrite IH, learn_visits. simpl. lia.
  - intros ks r. rewrite !learn_visits. lia.
Qed.

Lemma learn_step_entries (r : Q) (a : SimpleAIAgent) (k0 k : string) :
  (k <> k0 ->
   state_values (learn_step r a k0) !! k = state_values a !! k /\
   state_visits (learn_step r a k0) !! k = state_visits a !! k) /\
  (is_Some (state_values a !! k) -> is_Some (state_values (learn_step r a k0) !! k)) /\
  (is_Some (state_visits a !! k) -> is_Some (state_visits (learn_step r a k0) !! k)) /\
  is_Some (state_values (learn_step r a k0) !! k0) /\
  is_Some (state_visits (learn_step r a k0) !! k0).
Proof.
  rewrite learn_step_spec. simpl.
  split; [| split; [| split; [| split]]].
  - intros Hne. now rewrite !lookup_insert_ne by congruence.
  - intros Hs. destruct (decide (k0 = k)) as [-> | Hne];
      [rewrite lookup_insert_eq; eauto | now rewrite lookup_insert_ne].
  - intros Hs. destruct (decide (k0 = k)) as [-> | Hne];
      [rewrite lookup_insert_eq; eauto | now rewrite lookup_insert_ne].
  - rewrite lookup_insert_eq. eauto.
  - rewrite lookup_insert_eq. eauto.
Qed.

(** X5: [learn] writes only under the keys of the trajectory. Keys
    outside it keep their entries (or their absence) in both tables,
    epsilon is untouched, and every key of the trajectory ends with an
    entry in both tables, its count at least one. *)
Theorem learn_touches_only_trajectory (a : SimpleAIAgent) (ks : list string) (r : Q) :
  epsilon (learn a ks r) = epsilon a /\
  (forall k, ~ In k ks ->
     state_values (learn a ks r) !! k = state_values a !! k /\
     state_visits (learn a ks r) !! k = state_visits a !! k) /\
  (forall k, In k ks ->
     is_Some (state_values (learn a ks r) !! k) /\
     exists n, state_visits (learn a ks r) !! k = Some n /\ (1 <= n)%nat).
Proof.
  split; [apply learn_epsilon |].
  assert (Hkeep : forall ks a k,
            (is_Some (state_values a !! k) -> is_Some (state_values (learn a ks r) !! k)) /\
            (is_Some (state_visits a !! k) -> is_Some (state_visits (learn a ks r) !! k))).
  { clear. intros ks. induction ks as [| k0 ks IH]; intros a k; [tauto |].
    rewrite learn_cons. destruct (IH (learn_step r a k0) k) as [H1 H2].
    destruct (learn_step_entries r a k0 k) as [_ [H3 [H4 _]]]. tauto. }
  split.
  - revert a. induction ks as [| k0 ks IH]; intros a k Hk; [tauto |].
    rewrite learn_cons. destruct (IH (learn_step r a k0) k) as [H1 H2].
    { intros Hin. apply Hk. now right. }
    rewrite H1, H2. apply learn_step_entries. intros ->. apply Hk. now left.
  - intros k Hk.
    assert (Hsome : is_Some (state_values (learn a ks r) !! k) /\
                    is_Some (state_visits (learn a ks r) !! k)).
    { revert a. induction ks as [| k0 ks IH]; intros a; [destruct Hk |].
      rewrite learn_cons. destruct (string_dec k0 k) as [-> | Hne].
      - destruct (learn_step_entries r a k k) as [_ [_ [_ [H1 H2]]]].
        split; now apply Hkeep.
      - apply IH. destruct Hk as [Heq | Hk]; [congruence | exact Hk]. }
    destruct Hsome as [Hval [n Hn]]. split; [exact Hval |].
    exists n. split; [exact Hn |].
    pose proof (learn_visits a ks r k) as Hv. unfold visits_of at 1 in Hv.
    rewrite Hn in Hv. simpl in Hv.
    assert (Hocc : (0 < count_occ string_dec ks k)%nat) by now apply count_occ_In.
    lia.
Qed.

(** X5 on a fresh agent and a two-key trajectory. *)
Lemma learn_touches_only_trajectory_witness :
  let a' := learn (Agent.init 0) ["a"; "b"] 1 in
  state_values a' !! "c" = None /\ is_Some (state_values a' !! "b").
Proof.
  destruct (learn_touches_only_trajectory (Agent.init 0) ["a"; "b"] 1)
    as [_ [Hout Hin]].
  split.
  - rewrite (proj1 (Hout "c" ltac:(simpl; intuition discriminate))). reflexivity.
  - apply (Hin "b"). simpl. tauto.
Defined.





Section Greedy.
Context {R : Type} `{RandomSource R}.


Lemma choice_index {A : Type} (l : list A) (s : R) (x : A) (s' : R) :
  choice l s = Ret (x, s') ->
  l !! fst (randbelow (length l) s) = Some x /\ s' = snd (randbelow (length l) s).
Proof.
  destruct l as [| y l]; [discriminate |]. unfold choice.
  pose proof (randbelow_lt (length (y :: l)) s ltac:(simpl; lia)) as Hlt.
  destruct (randbelow (length (y :: l)) s) as [i s1]. simpl fst in *. simpl snd.
  destruct (lookup_lt_is_Some_2 (y :: l) i Hlt) as [z Hz].
  rewrite (getitem_nat _ _ _ Hz). cbn [bind]. intros Heq.
  inversion Heq; subst. split; [exact Hz | reflexivity].
Qed.


End Greedy.


(** * Further properties of the driver *)

Lemma after_move_running (g : TicTacToeGame) (n : nat) (m : string) :
  game_over (after_move g n m) = false ->
  game_over g = false /\
  current_player (after_move g n m) =
    (if String.eqb (current_player g) MARK_X then MARK_O else MARK_X).
Proof.
  unfold after_move. destruct (has_lineb _ _); [discriminate |].
  destruct (check_tie _); [discriminate |]. simpl. auto.
Qed.

(** Three cells of one mark on a line make at least three cells of that
    mark. *)
Lemma line_needs_three (b : list string) (m : string) :
  m <> EMPTY -> has_lineb b m = true -> (3 <= count_mark b m)%nat.
Proof.
  intros Hm Hline. apply has_lineb_spec in Hline.
  destruct Hline as [[[i j] k] [Hl [Hi [Hj Hk]]]].
  assert (Hdist : i <> j /\ i <> k /\ j <> k).
  { unfold win_lines in Hl. simpl in Hl.
    repeat (destruct Hl as [Hl | Hl]; [inversion Hl; subst; lia |]). destruct Hl. }
  destruct Hdist as [Hij [Hik Hjk]]. unfold count_mark.
  pose proof (count_occ_insert b i m EMPTY m Hi) as H1.
  assert (Hj1 : <[i := EMPTY]> b !! j = Some m) by now rewrite list_lookup_insert_ne.
  assert (Hk1 : <[i := EMPTY]> b !! k = Some m) by now rewrite list_lookup_insert_ne.
  pose proof (count_occ_insert _ j m EMPTY m Hj1) as H2.
  assert (Hk2 : <[j := EMPTY]> (<[i := EMPTY]> b) !! k = Some m)
    by now rewrite list_lookup_insert_ne.
  pose proof (count_occ_insert _ k m EMPTY m Hk2) as H3.
  destruct (decide (m = m)); [| congruence].
  destruct (decide (EMPTY = m)); [congruence |]. lia.
Qed.

Section Trajectories.
Context {R : Type} `{RandomSource R}.

(** Whatever the loop of an episode returns: the agent's counts, epsilon
    and read values are those it started with, the session is finished,
    and each trajectory has grown by the cells its mark has gained. *)
Lemma play_loop_frame (fuel : nat) :
  forall (a : SimpleAIAgent) (g : TicTacToeGame) (xs os : list string) (s : R)
         (a' : SimpleAIAgent) (g' : TicTacToeGame) (xs' os' : list string) (s' : R),
    reachable g ->
    trajectories_in_step g xs os ->
    play_loop fuel a g xs os s = Ret (a', g', (xs', os'), s') ->
    state_visits a' = state_visits a /\
    epsilon a' = epsilon a /\
    (forall k, value_of a' k = value_of a k) /\
    game_over g' = true /\ reachable g' /\
    (length xs' + count_mark (board g) MARK_X =
     length xs + count_mark (board g') MARK_X)%nat /\
    (length os' + count_mark (board g) MARK_O =
     length os + count_mark (board g') MARK_O)%nat /\
    (length xs' = length os' \/ length xs' = S (length os')).
Proof.
  induction fuel as [| fuel IH]; intros a g xs os s a' g' xs' os' s' Hreach Hstep Hp;
    pose proof (reachable_inv g Hreach) as Hinv;
    cbn [play_loop] in Hp; unfold trajectories_in_step in Hstep;
    destruct (game_over g) eqn:Hover; try discriminate.
  - inversion Hp; subst. repeat (split; [first [reflexivity | assumption | lia] |]).
    exact Hstep.
  - inversion Hp; subst. repeat (split; [first [reflexivity | assumption | lia] |]).
    exact Hstep.
  - destruct (choose_action_spec a g (current_player g) s) as [Hempty Hsome].
    destruct (available_moves g) as [| m0 ms] eqn:Hav.
    { rewrite (Hempty eq_refl) in Hp.
      destruct (String.eqb (current_player g) MARK_X); discriminate. }
    destruct (Hsome ltac:(discriminate)) as [m [s1 [Hm Hc]]]. clear Hempty Hsome.
    rewrite <- Hav in Hm. clear Hav m0 ms.
    set (a1 := if Qltb (fst (random s)) (epsilon a) then a
               else mkAgent (epsilon a)
                      (fold_left probe (probed_keys g (current_player g)) (state_values a))
                      (state_visits a)) in *.
    assert (Ha1 : state_visits a1 = state_visits a /\ epsilon a1 = epsilon a /\
                  forall k, value_of a1 k = value_of a k).
    { unfold a1. destruct (Qltb _ _); [auto |]. simpl.
      split; [reflexivity |]. split; [reflexivity |].
      intros k. unfold value_of. simpl. rewrite fold_probe_lookup.
      destruct (state_values a !! k); [reflexivity |]. now case_bool_decide. }
    pose proof (make_move_available g m None (proj1 (inv_board _ Hinv)) Hm) as Hmove.
    simpl mark_of in Hmove.
    assert (Hinv1 : reachable (after_move g (Z.to_nat m) (current_player g))).
    { apply (reachable_move g m None _ Hreach Hm); [now left | exact Hmove]. }
    apply available_moves_In in Hm. destruct Hm as [n [-> Hn]].
    rewrite Nat2Z.id in Hmove, Hinv1.
    set (g1 := after_move g n (current_player g)) in *.
    assert (Hboard : board g1 = <[n := current_player g]> (board g))
      by apply after_move_board.
    pose proof (count_occ_insert (board g) n EMPTY (current_player g) MARK_X Hn) as HX.
    pose proof (count_occ_insert (board g) n EMPTY (current_player g) MARK_O Hn) as HO.
    rewrite <- Hboard in HX, HO. fold (count_mark (board g1) MARK_X) in HX.
    fold (count_mark (board g1) MARK_O) in HO.
    fold (count_mark (board g) MARK_X) in HX. fold (count_mark (board g) MARK_O) in HO.
    pose proof (after_move_running g n (current_player g)) as Hrun. fold g1 in Hrun.
    destruct (String.eqb_spec (current_player g) MARK_X) as [Hcp | Hcp].
    + rewrite Hc in Hp. cbn [bind] in Hp. rewrite Hmove in Hp. cbn [bind] in Hp.
      destruct Hstep as [[_ Hlen] | [Hcp' _]]; [| rewrite Hcp in Hcp'; discriminate].
      destruct (IH a1 g1 (xs ++ [get_state g]) os s1 a' g' xs' os' s' Hinv1)
        as [Hv [He [Hval [Hov [Hi [Hx [Ho Halt]]]]]]]; [| exact Hp |].
      { unfold trajectories_in_step. rewrite length_app. simpl.
        destruct (game_over g1); [right; lia |].
        destruct (Hrun eq_refl) as [_ Hturn]. right.
        rewrite Hturn. split; [reflexivity | lia]. }
      destruct Ha1 as [Hv1 [He1 Hval1]].
      rewrite length_app in Hx. simpl in Hx. rewrite Hcp in HX, HO.
      destruct (decide (EMPTY = MARK_X)); [discriminate |].
      destruct (decide (EMPTY = MARK_O)); [discriminate |].
      destruct (decide (MARK_X = MARK_X)); [| congruence].
      destruct (decide (MARK_X = MARK_O)); [discriminate |].
      repeat (split; [first [congruence | assumption | lia] |]);
        first [exact Halt | intros k; now rewrite Hval].
    + assert (Hcp' : current_player g = MARK_O)
        by (destruct (inv_turn _ Hinv); [contradiction | assumption]).
      rewrite Hc in Hp. cbn [bind] in Hp. rewrite Hmove in Hp. cbn [bind] in Hp.
      destruct Hstep as [[Hx' _] | [_ Hlen]]; [contradiction |].
      destruct (IH a1 g1 xs (os ++ [get_state g]) s1 a' g' xs' os' s' Hinv1)
        as [Hv [He [Hval [Hov [Hi [Hx [Ho Halt]]]]]]]; [| exact Hp |].
      { unfold trajectories_in_step. rewrite length_app. simpl.
        destruct (game_over g1); [left; lia |].
        destruct (Hrun eq_refl) as [_ Hturn]. left.
        rewrite Hturn. split; [reflexivity | lia]. }
      destruct Ha1 as [Hv1 [He1 Hval1]].
      rewrite length_app in Ho. simpl in Ho. rewrite Hcp' in HX, HO.
      destruct (decide (EMPTY = MARK_X)); [discriminate |].
      destruct (decide (EMPTY = MARK_O)); [discriminate |].
      destruct (decide (MARK_O = MARK_O)); [| congruence].
      destruct (decide (MARK_O = MARK_X)); [discriminate |].
      repeat (split; [first [congruence | assumption | lia] |]);
        first [exact Halt | intros k; now rewrite Hval].
Qed.

End Trajectories.

Section SelfPlay.
Context {R : Type} `{RandomSource R}.

(** X7: a game of self-play started from [reset] ends; each mark's
    trajectory holds one key per cell the mark occupies at the end, so X
    has as many keys as O or one more and together they have between five
    and nine; and the game itself changes neither the agent's visit counts
    nor any value a key reads as. *)
Theorem self_play_trajectories (fuel : nat) (a : SimpleAIAgent) (g : TicTacToeGame)
    (s : R) :
  (9 <= fuel)%nat ->
  exists a' g' xs os s',
    play_loop fuel a (snd (reset g)) [] [] s = Ret (a', g', (xs, os), s') /\
    game_over g' = true /\
    length xs = count_mark (board g') MARK_X /\
    length os = count_mark (board g') MARK_O /\
    (length xs = length os \/ length xs = S (length os)) /\
    (5 <= length xs + length os <= 9)%nat /\
    state_visits a' = state_visits a /\
    (forall k, value_of a' k = value_of a k).
Proof.
  intros Hfuel.
  destruct (play_loop_spec fuel a (snd (reset g)) [] [] s (game_inv_reset g) Hfuel)
    as [a' [g' [xs [os [s' [Hp _]]]]]].
  exists a', g', xs, os, s'. split; [exact Hp |].
  destruct (play_loop_frame fuel a (snd (reset g)) [] [] s a' g' xs os s'
              (reachable_reset g)) as [Hv [_ [Hval [Hov [Hr [Hx [Ho Halt]]]]]]];
    [left; split; reflexivity | exact Hp |].
  change (count_mark (board (snd (reset g))) MARK_X) with 0%nat in Hx.
  change (count_mark (board (snd (reset g))) MARK_O) with 0%nat in Ho.
  simpl in Hx, Ho.
  pose proof (reachable_inv g' Hr) as Hinv.
  destruct (inv_board _ Hinv) as [Hlen Hcells].
  pose proof (cells_partition _ Hcells) as Hpart.
  split; [exact Hov |]. split; [lia |]. split; [lia |]. split; [exact Halt |].
  split; [| split; [exact Hv | exact Hval]].
  split; [| lia].
  apply (reachable_over_iff g' Hr) in Hov. destruct Hov as [Hw | Hfull]; [| lia].
  destruct (winner g') as [w |] eqn:Hwin; [| congruence].
  destruct (inv_winner _ Hinv w Hwin) as [Hcp [Hline _]].
  destruct (inv_turn _ Hinv) as [Hturn | Hturn]; rewrite Hturn in Hcp; subst w;
    apply line_needs_three in Hline; try discriminate; lia.
Qed.

End SelfPlay.

(** X7 with the example generator. *)
Lemma self_play_trajectories_witness :
  exists a' g' xs os s',
    play_loop 9 (Agent.init (1 # 10)) (snd (reset Game.init)) [] [] 3%nat =
      Ret (a', g', (xs, os), s') /\
    game_over g' = true /\
    (5 <= length xs + length os <= 9)%nat.
Proof.
  destruct (self_play_trajectories 9 (Agent.init (1 # 10)) Game.init 3%nat (le_n 9))
    as [a' [g' [xs [os [s' [Hp [Hov [_ [_ [_ [Hlen _]]]]]]]]]]].
  exists a', g', xs, os, s'. auto.
Defined.

Section TrainingFrame.
Context {R : Type} `{RandomSource R}.

(** What an episode that returns has done to the agent. *)
Lemma episode_frame (fuel : nat) (a : SimpleAIAgent) (g : TicTacToeGame) (s : R)
    (a' : SimpleAIAgent) (g' : TicTacToeGame) (s' : R) :
  episode fuel a g s = Ret (a', g', s') ->
  epsilon a' = epsilon a /\
  (forall k, (visits_of a k <= visits_of a' k)%nat).
Proof.
  unfold episode. destruct (reset g) as [key g0] eqn:Hreset.
  assert (Hg0 : g0 = snd (reset g)) by now rewrite Hreset.
  destruct (play_loop fuel a g0 [] [] s) as [[[[a1 g1] [xs os]] s1] | |] eqn:Hp;
    try discriminate.
  cbn [bind]. intros Heq.
  destruct (play_loop_frame fuel a g0 [] [] s a1 g1 xs os s1) as
    [Hv [He _]]; [subst g0; apply reachable_reset | | exact Hp |].
  { subst g0. left. split; reflexivity. }
  assert (Hall : forall r1 r2,
            a' = learn (learn a1 xs r1) os r2 ->
            epsilon a' = epsilon a /\
            (forall k, (visits_of a k <= visits_of a' k)%nat)).
  { intros r1 r2 ->. split.
    - now rewrite !learn_epsilon.
    - intros k. rewrite !learn_visits. unfold visits_of at 2. rewrite Hv.
      fold (visits_of a k). lia. }
  destruct (winner_is g1 MARK_X); [| destruct (winner_is g1 MARK_O)];
    inversion Heq; subst; (eapply Hall; reflexivity).
Qed.

Lemma train_loop_frame (fuel : nat) (range : list nat) :
  forall (a : SimpleAIAgent) (g : TicTacToeGame) (s : R) (a' : SimpleAIAgent) (s' : R),
    train_loop fuel range a g s = Ret (a', s') ->
    epsilon a' = epsilon a /\
    (forall k, (visits_of a k <= visits_of a' k)%nat).
Proof.
  induction range as [| ep range IH]; intros a g s a' s' Ht; cbn [train_loop] in Ht.
  - inversion Ht; subst. split; [reflexivity | intros; lia].
  - destruct (episode fuel a g s) as [[[a1 g1] s1] | |] eqn:He; try discriminate.
    cbn [bind] in Ht.
    destruct (episode_frame _ _ _ _ _ _ _ He) as [He1 Hv1].
    destruct ((ep + 1) mod 1000 =? 0)%nat.
    + inversion Ht; subst. auto.
    + destruct (IH _ _ _ _ _ Ht) as [He2 Hv2].
      split; [congruence |].
      intros k. specialize (Hv1 k). specialize (Hv2 k). lia.
Qed.

(** X8: training always returns and never forgets a visit. With fuel for
    the nine moves of a game, [train_agent] returns for every agent and
    every episode count, with the epsilon it was given and with no visit
    count lower than before. *)
Theorem train_agent_always_returns (fuel : nat) (a : SimpleAIAgent)
    (episodes : nat) (s : R) :
  (9 <= fuel)%nat ->
  exists a' s',
    train_agent fuel a episodes s = Ret (a', s') /\
    epsilon a' = epsilon a /\
    (forall k, (visits_of a k <= visits_of a' k)%nat).
Proof.
  intros Hfuel.
  destruct (train_agent_runs fuel a episodes s Hfuel) as [a' [s' [Ht _]]].
  exists a', s'. split; [exact Ht |].
  exact (train_loop_frame _ _ _ _ _ _ _ Ht).
Qed.

(** X9: up to 1000 episodes [train_agent] plays exactly the number of
    episodes it is asked for: it returns, and the blank board's key, which
    every episode visits once, has gained that many visits. *)
Theorem train_agent_plays_requested_episodes (fuel : nat) (a : SimpleAIAgent)
    (episodes : nat) (s : R) :
  (9 <= fuel)%nat ->
  (episodes <= 1000)%nat ->
  exists a' s',
    train_agent fuel a episodes s = Ret (a', s') /\
    visits_of a' blank_key = (visits_of a blank_key + episodes)%nat.
Proof.
  intros Hfuel Hn.
  destruct (train_agent_runs fuel a episodes s Hfuel) as [a' [s' [Ht Hv]]].
  exists a', s'. split; [exact Ht |]. rewrite Hv. f_equal. now apply Nat.min_l.
Qed.

End TrainingFrame.

(** X8 on a fresh agent with the example generator, 1500 episodes asked
    for. *)
Lemma train_agent_always_returns_witness :
  exists a' s',
    train_agent 9 (Agent.init (1 # 10)) 1500 0%nat = Ret (a', s') /\
    epsilon a' = 1 # 10.
Proof.
  destruct (train_agent_always_returns 9 (Agent.init (1 # 10)) 1500 0%nat (le_n 9))
    as [a' [s' [Ht [He _]]]].
  exists a', s'. split; [exact Ht | exact He].
Defined.

(** X9 on a fresh agent with the example generator, three episodes. *)
Lemma train_agent_plays_requested_episodes_witness :
  exists a' s',
    train_agent 9 (Agent.init (1 # 10)) 3 0%nat = Ret (a', s') /\
    visits_of a' blank_key = 3%nat.
Proof.
  destruct (train_agent_plays_requested_episodes 9 (Agent.init (1 # 10)) 3 0%nat
              (le_n 9)) as [a' [s' [Ht Hv]]].
  - lia.
  - exists a', s'. split; [exact Ht | exact Hv].
Defined.

(** * Properties of the game against a human *)

Section HumanMove.
Variable int : string -> option Z.

Lemma accepts_spec (game : TicTacToeGame) (line : string) (m : Z) :
  accepts int game line = Some m ->
  int line = Some (m + 1) /\ 0 <= m <= 8 /\ In m (available_moves game).
Proof.
  unfold accepts. destruct (int line) as [z |]; [| discriminate].
  destruct ((0 <=? z - 1) && (z - 1 <=? 8) && py_in (z - 1) (available_moves game))
    eqn:Hok; [| discriminate].
  intros Heq. inversion Heq; subst m. clear Heq.
  apply andb_true_iff in Hok. destruct Hok as [Hrange Hin].
  apply andb_true_iff in Hrange. destruct Hrange as [H0 H8].
  apply Z.leb_le in H0, H8. apply py_in_In in Hin.
  split; [f_equal; lia |]. split; [lia | exact Hin].
Qed.

(** One pass of the loop: an accepted line ends it, any other line costs
    a prompt and a message. *)
Lemma get_human_move_step (patience : nat) (game : TicTacToeGame) (con : Console) :
  get_human_move int (S patience) game con =
  match accepts int game (lines con (cursor con)) with
  | Some m => Ret (m, snd (input "Enter your move (1-9): " con))
  | None =>
      get_human_move int patience game
        (py_print
           (match int (lines con (cursor con)) with
            | Some _ => "Invalid move. Please enter a number between 1-9 for an empty space."
            | None => "Invalid input. Please enter a number."
            end)
           (snd (input "Enter your move (1-9): " con)))
  end.
Proof.
  cbn [get_human_move input]. unfold accepts. cbn [snd].
  destruct (int (lines con (cursor con))) as [z |]; [| reflexivity].
  destruct ((0 <=? z - 1) && (z - 1 <=? 8) && py_in (z - 1) (available_moves game));
    reflexivity.
Qed.

(** X10: [get_human_move] returns the move of the first line that names
    an available cell, having read the lines up to it and printed a prompt
    for each line and a message for each line it turned down; the move is
    available and between 0 and 8. When no line within the user's
    allowance names an available cell it is still asking (no exception is
    raised on the way). *)
Theorem get_human_move_takes_first_valid (patience : nat) (game : TicTacToeGame) :
  forall con : Console,
    (forall (j : nat) (m : Z),
       (j < patience)%nat ->
       (forall i, (i < j)%nat ->
          accepts int game (lines con (cursor con + i)%nat) = None) ->
       accepts int game (lines con (cursor con + j)%nat) = Some m ->
       exists con',
         get_human_move int patience game con = Ret (m, con') /\
         cursor con' = (cursor con + j + 1)%nat /\
         lines con' = lines con /\
         length (printed con') = (length (printed con) + 2 * j + 1)%nat /\
         In m (available_moves game) /\ 0 <= m <= 8) /\
    ((forall i, (i < patience)%nat ->
        accepts int game (lines con (cursor con + i)%nat) = None) ->
     get_human_move int patience game con = NoFuel).
Proof.
  induction patience as [| patience IH]; intros con.
  - split; [intros j m Hj; lia | reflexivity].
  - rewrite get_human_move_step. split.
    + intros [| j] m Hj Hbefore Hat.
      * rewrite Nat.add_0_r in Hat. rewrite Hat.
        destruct (accepts_spec _ _ _ Hat) as [_ [Hrange Hin]].
        eexists. split; [reflexivity |]. cbn [input snd cursor lines printed].
        rewrite length_app. simpl. repeat split; try assumption; lia.
      * pose proof (Hbefore 0%nat ltac:(lia)) as H0. rewrite Nat.add_0_r in H0.
        rewrite H0.
        match goal with
        | |- context [get_human_move int patience game ?c] =>
            destruct (proj1 (IH c) j m) as [con' [Hg [Hc [Hl [Hp Hm]]]]]
        end.
        -- lia.
        -- intros i Hi. cbn [py_print input snd cursor lines].
           replace (S (cursor con) + i)%nat with (cursor con + S i)%nat by lia.
           apply Hbefore. lia.
        -- cbn [py_print input snd cursor lines].
           replace (S (cursor con) + j)%nat with (cursor con + S j)%nat by lia.
           exact Hat.
        -- exists con'. split; [exact Hg |].
           cbn [py_print input snd cursor lines printed] in Hc, Hl, Hp.
           rewrite !length_app in Hp. simpl in Hp.
           repeat split; try tauto; lia.
    + intros Hnone.
      pose proof (Hnone 0%nat ltac:(lia)) as H0. rewrite Nat.add_0_r in H0. rewrite H0.
      apply IH. intros i Hi. cbn [py_print input snd cursor lines].
      replace (S (cursor con) + i)%nat with (cursor con + S i)%nat by lia.
      apply Hnone. lia.
Qed.

End HumanMove.

(** X10 with a user who types 1, 2, 3, ... when cells 0 and 1 are taken:
    the third line is the one accepted. *)
Lemma get_human_move_takes_first_valid_witness :
  let g := mkGame ["X"; "O"; " "; " "; " "; " "; " "; " "; " "] "X" None false in
  exists con',
    get_human_move digit_int 5 g (mkConsole round_and_round 0 []) = Ret (2, con') /\
    cursor con' = 3%nat.
Proof.
  cbv zeta.
  destruct (proj1 (get_human_move_takes_first_valid digit_int 5
                     (mkGame ["X"; "O"; " "; " "; " "; " "; " "; " "; " "] "X" None false)
                     (mkConsole round_and_round 0 [])) 2%nat 2)
    as [con' [Hg [Hc _]]].
  - lia.
  - intros i Hi. destruct i as [| [| i]]; [reflexivity | reflexivity | lia].
  - reflexivity.
  - exists con'. split; [exact Hg | exact Hc].
Defined.

Lemma no_raise_bind {A B : Type} (P : A -> Prop) (Q : B -> Prop) (m : outcome A)
    (k : A -> outcome B) :
  no_raise P m -> (forall x, P x -> no_raise Q (k x)) -> no_raise Q (bind m k).
Proof. destruct m; simpl; auto. Qed.

Lemma display_board_ok (g : TicTacToeGame) (con : Console) :
  length (board g) = 9%nat ->
  exists con',
    display_board g con = Ret con' /\
    cursor con' = cursor con /\ lines con' = lines con /\
    length (printed con') = (length (printed con) + 7)%nat.
Proof.
  intros Hlen. destruct g as [b cp w go]. simpl in Hlen.
  do 9 (destruct b as [| ? b]; [discriminate |]). destruct b; [| discriminate].
  eexists. split; [reflexivity |]. simpl.
  repeat split. rewrite !length_app. simpl. lia.
Qed.

Section ChooseFrame.
Context {R : Type} `{RandomSource R}.

(** What a call of [choose_action] that returns leaves of the agent. *)
Lemma choose_action_frame (a : SimpleAIAgent) (game : TicTacToeGame) (player : string)
    (s : R) (m : Z) (a' : SimpleAIAgent) (s' : R) :
  choose_action a game player s = Ret (m, a', s') ->
  In m (available_moves game) /\
  state_visits a' = state_visits a /\ epsilon a' = epsilon a /\
  (forall k, value_of a' k = value_of a k).
Proof.
  intros Hc. destruct (choose_action_spec a game player s) as [Hempty Hsome].
  destruct (available_moves game) as [| m0 ms] eqn:Hav.
  { rewrite (Hempty eq_refl) in Hc. discriminate. }
  destruct (Hsome ltac:(discriminate)) as [m1 [s1 [Hm Hc1]]].
  rewrite Hc1 in Hc. inversion Hc; subst. split; [exact Hm |].
  destruct (Qltb _ _); [auto |]. simpl.
  split; [reflexivity |]. split; [reflexivity |].
  intros k. unfold value_of. simpl. rewrite fold_probe_lookup.
  destruct (state_values a !! k); [reflexivity |]. now case_bool_decide.
Qed.

End ChooseFrame.

Section HumanGame.
Variable int : string -> option Z.
Variable upper : string -> string.
Context {R : Type} `{RandomSource R}.

Lemma get_human_move_safe (patience : nat) (game : TicTacToeGame) :
  forall con : Console,
    no_raise (fun r => In (fst r) (available_moves game) /\ lines (snd r) = lines con)
      (get_human_move int patience game con).
Proof.
  induction patience as [| patience IH]; intros con; [exact I |].
  rewrite get_human_move_step.
  destruct (accepts int game (lines con (cursor con))) as [m |] eqn:Hacc.
  - simpl. split; [apply (accepts_spec _ _ _ _ Hacc) | reflexivity].
  - match goal with
    | |- context [get_human_move int patience game ?c] => specialize (IH c)
    end.
    destruct (get_human_move int patience game _) as [[m con'] | |]; simpl in *; tauto.
Qed.

(** The game loop never raises; what it returns is a finished session of
    play in turn, an agent that reads as before, and the same user. *)
Lemma play_game_loop_safe (patience : nat) (human_player ai_player : string)
    (fuel : nat) :
  forall (a : SimpleAIAgent) (g : TicTacToeGame) (con : Console) (s : R),
    reachable g ->
    no_raise
      (fun r : TicTacToeGame * SimpleAIAgent * (Console * R) =>
         let '(g', a', (con', s')) := r in
         game_over g' = true /\ reachable g' /\
         state_visits a' = state_visits a /\ epsilon a' = epsilon a /\
         (forall k, value_of a' k = value_of a k) /\
         lines con' = lines con)
      (play_game_loop int fuel patience human_player ai_player a g con s).
Proof.
  induction fuel as [| fuel IH]; intros a g con s Hreach; cbn [play_game_loop];
    destruct (game_over g) eqn:Hover; try exact I;
    try (simpl; repeat split; assumption || reflexivity).
  pose proof (reachable_inv g Hreach) as Hinv.
  eapply (no_raise_bind
            (fun r : TicTacToeGame * SimpleAIAgent * (Console * R) =>
               let '(g1, a1, (con1, s1)) := r in
               reachable g1 /\
               state_visits a1 = state_visits a /\ epsilon a1 = epsilon a /\
               (forall k, value_of a1 k = value_of a k) /\ lines con1 = lines con)).
  - destruct (String.eqb (current_player g) human_player).
    + eapply no_raise_bind; [apply get_human_move_safe |].
      intros [m con1] [Hm Hl]. simpl in Hm, Hl.
      rewrite (make_move_available g m None (proj1 (inv_board _ Hinv)) Hm).
      simpl. split; [| auto].
      apply (reachable_move g m None _ Hreach Hm); [now left |].
      now apply make_move_available; [apply (inv_board _ Hinv) |].
    + destruct (choose_action a g ai_player s) as [[[m a1] s1] | e |] eqn:Hc;
        cbn [bind no_raise].
      * destruct (choose_action_frame _ _ _ _ _ _ _ Hc) as [Hm [Hv [He Hval]]].
        rewrite (make_move_available g m None (proj1 (inv_board _ Hinv)) Hm).
        simpl. split; [| auto].
        apply (reachable_move g m None _ Hreach Hm); [now left |].
        now apply make_move_available; [apply (inv_board _ Hinv) |].
      * destruct (inv_running _ Hinv Hover) as [_ [n Hn]].
        assert (Hin : In (Z.of_nat n) (available_moves g))
          by (apply available_moves_In; now exists n).
        destruct (proj2 (choose_action_spec a g ai_player s)) as [m [s' [_ Hc']]].
        { intros Hnil. rewrite Hnil in Hin. destruct Hin. }
        congruence.
      * exact I.
  - intros [[g1 a1] [con1 s1]] [Hr1 [Hv1 [He1 [Hval1 Hl1]]]].
    destruct (display_board_ok g1 con1 (proj1 (inv_board _ (reachable_inv _ Hr1))))
      as [con2 [Hd [_ [Hl2 _]]]].
    rewrite Hd. cbn [bind].
    specialize (IH a1 g1 con2 s1 Hr1).
    destruct (play_game_loop int fuel patience human_player ai_player a1 g1 con2 s1)
      as [[[g' a'] [con' s']] | |]; simpl in *; [| exact IH | exact I].
    destruct IH as [Hov [Hr' [Hv' [He' [Hval' Hl']]]]].
    repeat split; try assumption; try congruence;
      try (intros k; rewrite Hval'; apply Hval1).
Qed.

(** A game against a human never raises and leaves the agent reading as
    it did. *)
Lemma play_game_frame (fuel patience : nat) (a : SimpleAIAgent) (con : Console)
    (s : R) :
  no_raise
    (fun r : TicTacToeGame * SimpleAIAgent * (Console * R) =>
       let '(g', a', (con', s')) := r in
       state_visits a' = state_visits a /\ epsilon a' = epsilon a /\
       (forall k, value_of a' k = value_of a k) /\
       lines con' = lines con)
    (play_game int upper fuel patience a con s).
Proof.
  unfold play_game. cbn [input].
  set (human := if String.eqb (upper (lines con (cursor con))) "X"
                   || String.eqb (upper (lines con (cursor con))) "O"
                then upper (lines con (cursor con)) else "X").
  match goal with
  | |- context [display_board Game.init ?c] =>
      destruct (display_board_ok Game.init c eq_refl) as [con1 [Hd [_ [Hl1 _]]]];
      rewrite Hd
  end.
  cbn [bind]. cbn [py_print lines] in Hl1.
  pose proof (play_game_loop_safe patience human
                (if String.eqb human "X" then "O" else "X") fuel a Game.init con1 s
                (reachable_reset Game.init)) as Hloop.
  destruct (play_game_loop int fuel patience human _ a Game.init con1 s)
    as [[[g' a'] [con' s']] | |]; simpl in Hloop; [| exact Hloop | exact I].
  destruct Hloop as [_ [_ [Hv [He [Hval Hl]]]]]. rewrite Hl1 in Hl.
  cbn [bind no_raise].
  split; [exact Hv |]. split; [exact He |]. split; [exact Hval |].
  destruct (truthy (winner g')); [destruct (winner_is g' human) |]; exact Hl.
Qed.

(** X11: a game against a human never raises. When [play_game] returns,
    the session it played is finished and was played in turn, the agent
    has the visit counts, the epsilon and the values it had (nothing is
    learnt from the game), and the last line printed is the verdict:
    congratulations when the winner is the human's mark, the AI's win when
    it is the other mark, a tie when there is no winner. *)
Theorem play_game_is_safe (fuel patience : nat) (a : SimpleAIAgent) (con : Console)
    (s : R) :
  no_raise
    (fun r : TicTacToeGame * SimpleAIAgent * (Console * R) =>
       let '(g', a', (con', s')) := r in
       game_over g' = true /\ reachable g' /\
       state_visits a' = state_visits a /\ epsilon a' = epsilon a /\
       (forall k, value_of a' k = value_of a k) /\
       lines con' = lines con /\
       last (printed con') =
         Some (verdict (human_mark upper (lines con (cursor con))) g'))
    (play_game int upper fuel patience a con s).
Proof.
  unfold play_game. cbn [input]. fold (human_mark upper (lines con (cursor con))).
  set (human := human_mark upper (lines con (cursor con))).
  match goal with
  | |- context [display_board Game.init ?c] =>
      destruct (display_board_ok Game.init c eq_refl) as [con1 [Hd [_ [Hl1 _]]]];
      rewrite Hd
  end.
  cbn [bind].
  pose proof (play_game_loop_safe patience human
                (if String.eqb human "X" then "O" else "X") fuel a Game.init con1 s
                (reachable_reset Game.init)) as Hloop.
  destruct (play_game_loop int fuel patience human _ a Game.init con1 s)
    as [[[g' a'] [con' s']] | |]; simpl in Hloop; [| exact Hloop | exact I].
  destruct Hloop as [Hov [Hr [Hv [He [Hval Hl]]]]].
  cbn [py_print lines] in Hl1. rewrite Hl1 in Hl.
  cbn [bind no_raise].
  repeat (split; [first [assumption | congruence] |]).
  pose proof (reachable_inv g' Hr) as Hinv. unfold verdict, truthy, winner_is.
  destruct (winner g') as [w |] eqn:Hw.
  - destruct (inv_winner _ Hinv w Hw) as [Hcp _].
    assert (Hne : String.eqb w "" = false)
      by (destruct (inv_turn _ Hinv) as [Ht | Ht]; rewrite Hcp, Ht; reflexivity).
    rewrite Hne. simpl negb. cbv iota.
    destruct (String.eqb w human); cbn [py_print printed lines];
      (split; [congruence | apply last_snoc]).
  - cbn [py_print printed lines]. split; [congruence | apply last_snoc].
Qed.

End HumanGame.

Section HumanGameEnds.
Variable int : string -> option Z.
Variable upper : string -> string.
Context {R : Type} `{RandomSource R}.

Lemma accepts_intro (game : TicTacToeGame) (line : string) (m : Z) :
  int line = Some (m + 1) -> 0 <= m <= 8 -> In m (available_moves game) ->
  accepts int game line = Some m.
Proof.
  intros Hint Hrange Hin. unfold accepts. rewrite Hint.
  replace (m + 1 - 1) with m by lia.
  rewrite (proj2 (py_in_In m _) Hin).
  replace (0 <=? m) with true by (symmetry; apply Z.leb_le; lia).
  replace (m <=? 8) with true by (symmetry; apply Z.leb_le; lia).
  reflexivity.
Qed.

Lemma get_human_move_returns (patience : nat) (game : TicTacToeGame) :
  forall (con : Console) (j : nat) (m : Z),
    (j < patience)%nat ->
    accepts int game (lines con (cursor con + j)%nat) = Some m ->
    exists m' con',
      get_human_move int patience game con = Ret (m', con') /\
      In m' (available_moves game) /\ lines con' = lines con.
Proof.
  induction patience as [| patience IH]; intros con j m Hj Hacc; [lia |].
  rewrite get_human_move_step.
  destruct (accepts int game (lines con (cursor con))) as [m0 |] eqn:Hfirst.
  - exists m0. eexists. split; [reflexivity |].
    split; [apply (accepts_spec _ _ _ _ Hfirst) | reflexivity].
  - destruct j as [| j]; [rewrite Nat.add_0_r in Hacc; congruence |].
    match goal with
    | |- context [get_human_move int patience game ?c] =>
        destruct (IH c j m) as [m' [con' [Hg [Hin Hl]]]]
    end.
    + lia.
    + cbn [py_print input snd cursor lines].
      replace (S (cursor con) + j)%nat with (cursor con + S j)%nat by lia. exact Hacc.
    + exists m', con'. split; [exact Hg |]. split; [exact Hin | exact Hl].
Qed.

(** With a user who keeps naming every cell and fuel for the blank
    cells, the game loop returns. *)
Lemma play_game_loop_finishes (patience : nat) (human_player ai_player : string)
    (fuel : nat) :
  forall (a : SimpleAIAgent) (g : TicTacToeGame) (con : Console) (s : R),
    names_every_cell int (lines con) patience ->
    reachable g ->
    (blank_count (board g) <= fuel)%nat ->
    exists r, play_game_loop int fuel patience human_player ai_player a g con s = Ret r.
Proof.
  induction fuel as [| fuel IH]; intros a g con s Huser Hreach Hfuel;
    pose proof (reachable_inv g Hreach) as Hinv; cbn [play_game_loop];
    destruct (game_over g) eqn:Hover; try (eexists; reflexivity).
  - destruct (inv_running _ Hinv Hover) as [_ [n Hn]].
    pose proof (blank_count_insert (board g) n MARK_X Hn ltac:(discriminate)). lia.
  - destruct (inv_running _ Hinv Hover) as [_ [n Hn]].
    assert (Hin : In (Z.of_nat n) (available_moves g))
      by (apply available_moves_In; now exists n).
    assert (Hn9 : (n < 9)%nat).
    { rewrite <- (proj1 (inv_board _ Hinv)). eapply lookup_lt_Some; eassumption. }
    assert (Hcp : current_player g <> EMPTY)
      by (destruct (inv_turn _ Hinv) as [-> | ->]; discriminate).
    assert (Hnext : forall (m : Z) (a1 : SimpleAIAgent) (con1 : Console) (s1 : R),
              In m (available_moves g) -> lines con1 = lines con ->
              exists r,
                (let* (_, game) := make_move g m None in
                 let* con2 := display_board game con1 in
                 play_game_loop int fuel patience human_player ai_player a1 game con2 s1)
                = Ret r).
    { intros m a1 con1 s1 Hm Hl.
      pose proof (make_move_available g m None (proj1 (inv_board _ Hinv)) Hm) as Hmove.
      assert (Hr1 : reachable (after_move g (Z.to_nat m) (mark_of g None)))
        by (apply (reachable_move g m None _ Hreach Hm); [now left | exact Hmove]).
      rewrite Hmove. cbn [bind].
      destruct (display_board_ok (after_move g (Z.to_nat m) (mark_of g None)) con1
                  (proj1 (inv_board _ (reachable_inv _ Hr1)))) as [con2 [Hd [_ [Hl2 _]]]].
      rewrite Hd. cbn [bind]. apply IH; [| exact Hr1 |].
      - rewrite Hl2, Hl. exact Huser.
      - rewrite after_move_board. apply available_moves_In in Hm.
        destruct Hm as [n' [-> Hn']]. rewrite Nat2Z.id.
        pose proof (blank_count_insert (board g) n' _ Hn' Hcp). simpl mark_of. lia. }
    destruct (String.eqb (current_player g) human_player).
    + destruct (Huser (cursor con) (Z.of_nat n) ltac:(lia)) as [j [Hj Hint]].
      destruct (get_human_move_returns patience g con j (Z.of_nat n) Hj)
        as [m' [con1 [Hg [Hm' Hl1]]]].
      { apply accepts_intro; [exact Hint | lia | exact Hin]. }
      rewrite Hg. cbn [bind].
      destruct (Hnext m' a con1 s Hm' Hl1) as [r Hr].
      destruct (make_move g m' None) as [[ok g1] | |]; cbn [bind] in *;
        try discriminate. eexists. exact Hr.
    + destruct (proj2 (choose_action_spec a g ai_player s)) as [m [s1 [Hm Hc]]].
      { intros Hnil. rewrite Hnil in Hin. destruct Hin. }
      rewrite Hc. cbn [bind].
      match goal with
      | |- context [py_print ?t (py_print "AI is thinking..." con)] =>
          destruct (Hnext m
                      (if Qltb (fst (random s)) (epsilon a) then a
                       else mkAgent (epsilon a)
                              (fold_left probe (probed_keys g ai_player) (state_values a))
                              (state_visits a))
                      (py_print t (py_print "AI is thinking..." con)) s1 Hm eq_refl)
            as [r Hr]
      end.
      destruct (make_move g m None) as [[ok g1] | |]; cbn [bind] in *;
        try discriminate. eexists. exact Hr.
Qed.

(** X12: with a user who keeps naming every cell and fuel for the nine
    moves, a game against a human ends: [play_game] returns, and the
    session it played is over. *)
Theorem play_game_finishes (fuel patience : nat) (a : SimpleAIAgent) (con : Console)
    (s : R) :
  names_every_cell int (lines con) patience ->
  (9 <= fuel)%nat ->
  exists g' a' con' s',
    play_game int upper fuel patience a con s = Ret (g', a', (con', s')) /\
    game_over g' = true.
Proof.
  intros Huser Hfuel. unfold play_game. cbn [input].
  set (human := if String.eqb (upper (lines con (cursor con))) "X"
                   || String.eqb (upper (lines con (cursor con))) "O"
                then upper (lines con (cursor con)) else "X").
  match goal with
  | |- context [display_board Game.init ?c] =>
      destruct (display_board_ok Game.init c eq_refl) as [con1 [Hd [_ [Hl1 _]]]];
      rewrite Hd
  end.
  cbn [bind]. cbn [py_print lines] in Hl1.
  destruct (play_game_loop_finishes patience human
              (if String.eqb human "X" then "O" else "X") fuel a Game.init con1 s)
    as [[[g' a'] [con' s']] Hloop].
  { rewrite Hl1. exact Huser. }
  { apply reachable_reset. }
  { exact Hfuel. }
  pose proof (play_game_loop_safe int patience human
                (if String.eqb human "X" then "O" else "X") fuel a Game.init con1 s
                (reachable_reset Game.init)) as Hsafe.
  rewrite Hloop in Hsafe. simpl in Hsafe. destruct Hsafe as [Hov _].
  rewrite Hloop. cbn [bind].
  eexists g', a', _, s'. split; [reflexivity | exact Hov].
Qed.

End HumanGameEnds.

Lemma digit_int_round (k : nat) :
  (k < 9)%nat -> digit_int (String (ascii_of_nat (49 + k)) EmptyString) = Some (Z.of_nat k + 1).
Proof.
  intros Hk. do 9 (destruct k as [| k]; [reflexivity |]). lia.
Qed.

Lemma round_and_round_names_every_cell : names_every_cell digit_int round_and_round 9.
Proof.
  intros c m Hm.
  set (k := Z.to_nat m).
  assert (Hk : (k < 9)%nat) by (unfold k; lia).
  exists ((k + 9 - c mod 9) mod 9)%nat.
  split; [apply Nat.mod_upper_bound; lia |].
  unfold round_and_round.
  assert (Hmod : ((c + (k + 9 - c mod 9) mod 9) mod 9 = k)%nat).
  { rewrite Nat.Div0.add_mod, Nat.Div0.mod_mod.
    pose proof (Nat.mod_upper_bound c 9 ltac:(lia)) as Hr.
    destruct (c mod 9)%nat as [| [| [| [| [| [| [| [| [| r]]]]]]]]]; try lia;
      do 9 (destruct k as [| k]; [reflexivity |]); lia. }
  rewrite Hmod, digit_int_round by exact Hk. f_equal. unfold k. lia.
Qed.

(** X12 with the one-digit parser, the user who types 1 to 9 round and
    round, and the example generator. *)
Lemma play_game_finishes_witness :
  exists g' a' con' s',
    play_game digit_int (fun x => x) 9 9 (Agent.init (1 # 10))
      (mkConsole round_and_round 0 []) 0%nat = Ret (g', a', (con', s')) /\
    game_over g' = true.
Proof.
  apply (play_game_finishes digit_int (fun x => x) 9 9 (Agent.init (1 # 10))
           (mkConsole round_and_round 0 []) 0%nat).
  - exact round_and_round_names_every_cell.
  - lia.
Defined.

(** * Properties of the replay question *)

Section Replay.
Variable lower : string -> string.

Lemma ask_play_again_step (todo max_attempts attempts : nat) (prev : option string)
    (con : Console) :
  ask_play_again lower (S todo) max_attempts attempts prev con =
  if settles (lower (lines con (cursor con))) then
    (Some (lower (lines con (cursor con))),
     snd (input (String "010" "Do you want to play again? (yes/no): ") con))
  else
    ask_play_again lower todo max_attempts (attempts + 1)
      (Some (lower (lines con (cursor con))))
      (py_print ("[bold red]Invalid answer. You have "
                 ++ pretty (max_attempts - (attempts + 1))%nat
                 ++ " more attempts.[/bold red]")
         (snd (input (String "010" "Do you want to play again? (yes/no): ") con))).
Proof. reflexivity. Qed.

Lemma ask_play_again_scan (max_attempts : nat) (todo : nat) :
  forall (attempts : nat) (prev : option string) (con : Console),
    (forall j,
       (j < todo)%nat ->
       (forall i, (i < j)%nat -> settles (lower (lines con (cursor con + i)%nat)) = false) ->
       settles (lower (lines con (cursor con + j)%nat)) = true ->
       exists con',
         ask_play_again lower todo max_attempts attempts prev con =
           (Some (lower (lines con (cursor con + j)%nat)), con') /\
         cursor con' = (cursor con + j + 1)%nat /\ lines con' = lines con) /\
    ((forall i, (i < todo)%nat ->
        settles (lower (lines con (cursor con + i)%nat)) = false) ->
     exists con',
       ask_play_again lower todo max_attempts attempts prev con =
         (match todo with
          | O => prev
          | S t => Some (lower (lines con (cursor con + t)%nat))
          end, con') /\
       cursor con' = (cursor con + todo)%nat /\ lines con' = lines con /\
       (todo <> 0%nat ->
        last (printed con') =
          Some ("[bold red]Invalid answer. You have "
                ++ pretty (max_attempts - (attempts + todo))%nat
                ++ " more attempts.[/bold red]")%string)).
Proof.
  induction todo as [| todo IH]; intros attempts prev con.
  - split; [intros j Hj; lia |]. intros _. exists con. simpl.
    split; [reflexivity | split; [lia | split; [reflexivity | congruence]]].
  - rewrite ask_play_again_step. split.
    + intros [| j] Hj Hbefore Hat.
      * rewrite Nat.add_0_r in *. rewrite Hat. eexists. split; [reflexivity |].
        cbn [input snd cursor lines]. split; [lia | reflexivity].
      * pose proof (Hbefore 0%nat ltac:(lia)) as H0. rewrite Nat.add_0_r in H0.
        rewrite H0.
        match goal with
        | |- context [ask_play_again lower todo max_attempts ?a ?p ?c] =>
            destruct (proj1 (IH a p c) j) as [con' [Ha [Hc Hl]]]
        end.
        -- lia.
        -- intros i Hi. cbn [py_print input snd cursor lines].
           replace (S (cursor con) + i)%nat with (cursor con + S i)%nat by lia.
           apply Hbefore. lia.
        -- cbn [py_print input snd cursor lines].
           replace (S (cursor con) + j)%nat with (cursor con + S j)%nat by lia.
           exact Hat.
        -- cbn [py_print input snd cursor lines] in Ha, Hc, Hl.
           replace (S (cursor con) + j)%nat with (cursor con + S j)%nat in Ha by lia.
           exists con'. split; [exact Ha |]. split; [lia | exact Hl].
    + intros Hnone.
      pose proof (Hnone 0%nat ltac:(lia)) as H0. rewrite Nat.add_0_r in H0. rewrite H0.
      match goal with
      | |- context [ask_play_again lower todo max_attempts ?a ?p ?c] =>
          destruct (proj2 (IH a p c)) as [con' [Ha [Hc [Hl Hlast]]]]
      end.
      { intros i Hi. cbn [py_print input snd cursor lines].
        replace (S (cursor con) + i)%nat with (cursor con + S i)%nat by lia.
        apply Hnone. lia. }
      cbn [py_print input snd cursor lines printed] in Ha, Hc, Hl, Hlast |- *.
      exists con'. split; [| split; [lia | split; [exact Hl |]]].
      * rewrite Ha. f_equal. destruct todo as [| t]; [now rewrite Nat.add_0_r |].
        f_equal. f_equal. f_equal. lia.
      * intros _. destruct todo as [| t].
        -- cbn [ask_play_again] in Ha. inversion Ha; subst con'.
           cbn [printed py_print]. rewrite last_snoc. do 4 f_equal; lia.
        -- rewrite Hlast by discriminate. do 4 f_equal; lia.
Qed.

(** X13: the question after a game is asked at most four times. The
    first answer that is yes or no (after lowering its case) is the one
    returned, and the lines after it are left unread; when the first four
    answers are neither, the fourth is returned, exactly four lines have
    been read, and the last message counts zero attempts left. *)
Theorem replay_question_asks_four_times (con : Console) :
  (forall j,
     (j < 4)%nat ->
     (forall i, (i < j)%nat -> settles (lower (lines con (cursor con + i)%nat)) = false) ->
     settles (lower (lines con (cursor con + j)%nat)) = true ->
     exists con',
       ask_play_again lower 4 4 0 None con =
         (Some (lower (lines con (cursor con + j)%nat)), con') /\
       cursor con' = (cursor con + j + 1)%nat) /\
  ((forall i, (i < 4)%nat -> settles (lower (lines con (cursor con + i)%nat)) = false) ->
   exists con',
     ask_play_again lower 4 4 0 None con =
       (Some (lower (lines con (cursor con + 3)%nat)), con') /\
     cursor con' = (cursor con + 4)%nat /\
     last (printed con') =
       Some "[bold red]Invalid answer. You have 0 more attempts.[/bold red]").
Proof.
  destruct (ask_play_again_scan 4 4 0 None con) as [Hfirst Hnone]. split.
  - intros j Hj Hbefore Hat.
    destruct (Hfirst j Hj Hbefore Hat) as [con' [Ha [Hc _]]]. eauto.
  - intros Hall. destruct (Hnone Hall) as [con' [Ha [Hc [_ Hlast]]]].
    exists con'. split; [exact Ha |]. split; [exact Hc |].
    now rewrite Hlast by discriminate.
Qed.

End Replay.

(** X13 with a user who goes on typing cell numbers: after four of them
    the asking stops, on the fourth. *)
Lemma replay_question_asks_four_times_witness :
  exists con',
    ask_play_again (fun x => x) 4 4 0 None (mkConsole round_and_round 0 []) =
      (Some "4", con') /\
    cursor con' = 4%nat.
Proof.
  destruct (proj2 (replay_question_asks_four_times (fun x => x)
                     (mkConsole round_and_round 0 [])))
    as [con' [Ha [Hc _]]].
  - intros i Hi. do 4 (destruct i as [| i]; [reflexivity |]). lia.
  - exists con'. split; [exact Ha | exact Hc].
Defined.

(** * Properties of the loop of [main] *)

Section MainLoop.
Variable int : string -> option Z.
Variable upper : string -> string.
Variable lower : string -> string.
Context {R : Type} `{RandomSource R}.

Lemma ask_play_again_lines (max_attempts : nat) (todo : nat) :
  forall (attempts : nat) (prev : option string) (con : Console),
    lines (snd (ask_play_again lower todo max_attempts attempts prev con)) = lines con.
Proof.
  induction todo as [| todo IH]; intros attempts prev con; [reflexivity |].
  rewrite ask_play_again_step. destruct (settles _); [reflexivity |].
  now rewrite IH.
Qed.

(** X14: while the user keeps typing lines, the loop of [main] raises no
    [IndexError]: none comes out of [choose_action], [make_move] or
    [display_board], the calls in it that index a list. When it returns,
    the agent has the visit counts, the epsilon and the values it was
    given (games against a human teach it nothing), the user's lines are
    as they were, and the last line printed is one of the two farewells. *)
Theorem main_loop_is_safe (games fuel patience : nat) :
  forall (a : SimpleAIAgent) (con : Console) (s : R),
    no_raise
      (fun r : SimpleAIAgent * (Console * R) =>
         let '(a', (con', s')) := r in
         state_visits a' = state_visits a /\ epsilon a' = epsilon a /\
         (forall k, value_of a' k = value_of a k) /\
         lines con' = lines con /\
         exists text, last (printed con') = Some text /\ farewell text)
      (main_loop int upper lower games fuel patience a con s).
Proof.
  induction games as [| games IH]; intros a con s; [exact I |].
  cbn [main_loop].
  eapply no_raise_bind; [apply (play_game_frame int upper fuel patience a con s) |].
  intros [[g a1] [con1 s1]] [Hv [He [Hval Hl]]].
  pose proof (ask_play_again_lines 4 4 0 None con1) as Hlines.
  destruct (ask_play_again lower 4 4 0 None con1) as [answer con2]. simpl in Hlines.
  destruct (match answer with Some a0 => String.eqb a0 "yes" | None => false end).
  - match goal with
    | |- context [main_loop int upper lower games fuel patience a1 ?c s1] =>
        specialize (IH a1 c s1);
        destruct (main_loop int upper lower games fuel patience a1 c s1)
          as [[a' [con' s']] | |]; simpl in *; [| exact IH | exact I]
    end.
    destruct IH as [Hv' [He' [Hval' [Hl' Hbye]]]].
    split; [congruence |]. split; [congruence |].
    split; [intros k; now rewrite Hval' |]. split; [congruence | exact Hbye].
  - destruct (match answer with Some a0 => String.eqb a0 "no" | None => false end);
      simpl; (split; [exact Hv |]); (split; [exact He |]); (split; [exact Hval |]);
      (split; [congruence |]); eexists; (split; [apply last_snoc |]);
      [left | right]; reflexivity.
Qed.

End MainLoop.

(** * More on the engine and on action selection *)

(** X15: on a nine-cell board [check_win] always answers, and it answers
    [True] exactly when the mark fills the three cells of one of the eight
    lines. *)
Theorem check_win_iff_line (g : TicTacToeGame) (mark : string) :
  length (board g) = 9%nat ->
  (exists b, check_win g mark = Ret b) /\
  (check_win g mark = Ret true <->
   exists i j k,
     In (i, j, k) win_lines /\
     board g !! i = Some mark /\ board g !! j = Some mark /\ board g !! k = Some mark).
Proof.
  intros Hlen. rewrite check_win_spec by exact Hlen. split; [eauto |]. split.
  - intros Heq. inversion Heq as [Hb]. apply has_lineb_spec in Hb.
    destruct Hb as [[[i j] k] [Hin Hh]]. exists i, j, k. split; [exact Hin | exact Hh].
  - intros [i [j [k [Hin Hh]]]]. f_equal. apply has_lineb_spec.
    exists (i, j, k). split; [exact Hin | exact Hh].
Qed.

(** X15 on a board whose left column is O. *)
Lemma check_win_iff_line_witness :
  let g := mkGame ["O"; "X"; "X"; "O"; "X"; " "; "O"; " "; " "] "X" None false in
  check_win g "O" = Ret true <->
  exists i j k,
    In (i, j, k) win_lines /\
    board g !! i = Some "O" /\ board g !! j = Some "O" /\ board g !! k = Some "O".
Proof.
  apply (proj2 (check_win_iff_line
                  (mkGame ["O"; "X"; "X"; "O"; "X"; " "; "O"; " "; " "] "X" None false)
                  "O" eq_refl)).
Defined.

(** X16: in play made in turn a finished game stays finished. A move made
    after the end, with the mark whose turn it is, is still accepted by
    [make_move] when its cell is blank, but it leaves [game_over] set and
    the winner as it was. *)
Theorem game_over_is_final (g : TicTacToeGame) (position : Z) (player : option string) :
  reachable g ->
  game_over g = true ->
  In position (available_moves g) ->
  player = None \/ player = Some (current_player g) ->
  exists g',
    make_move g position player = Ret (true, g') /\
    game_over g' = true /\ winner g' = winner g /\
    current_player g' = current_player g.
Proof.
  intros Hr Hover Hin Hpl. pose proof (reachable_inv g Hr) as Hinv.
  exists (after_move g (Z.to_nat position) (mark_of g player)).
  split; [apply make_move_available; [apply (inv_board _ Hinv) | exact Hin] |].
  assert (Hmark : mark_of g player = current_player g)
    by (destruct Hpl as [-> | ->]; reflexivity).
  rewrite Hmark. apply available_moves_In in Hin. destruct Hin as [n [-> Hn]].
  rewrite Nat2Z.id.
  apply (reachable_over_iff g Hr) in Hover. destruct Hover as [Hw | Hfull].
  - destruct (winner g) as [w |] eqn:Hwin; [| congruence].
    destruct (inv_winner _ Hinv w Hwin) as [-> [Hline _]].
    apply (has_lineb_insert_same _ n) in Hline.
    unfold after_move. rewrite Hline. simpl. auto.
  - assert (Hcp : current_player g <> EMPTY)
      by (destruct (inv_turn _ Hinv) as [-> | ->]; discriminate).
    pose proof (blank_count_insert (board g) n _ Hn Hcp). lia.
Qed.

(** X16 at the end of the top-row scenario. *)
Lemma game_over_is_final_witness :
  let g := mkGame ["X"; "X"; "X"; "O"; "O"; " "; " "; " "; " "] "X" (Some MARK_X) true in
  exists g',
    make_move g 5 None = Ret (true, g') /\
    game_over g' = true /\ winner g' = winner g /\
    current_player g' = current_player g.
Proof.
  apply (game_over_is_final _ 5 None top_row_reachable).
  - reflexivity.
  - vm_compute. tauto.
  - now left.
Defined.

Section Selection.
Context {R : Type} `{RandomSource R}.

(** X17: a move [choose_action] returns is one [make_move] accepts. On a
    nine-cell board with a blank cell, choosing and then moving succeeds,
    and the move writes the mover's mark into the chosen cell, which was
    blank. *)
Theorem chosen_move_is_accepted (a : SimpleAIAgent) (g : TicTacToeGame)
    (player : string) (s : R) :
  length (board g) = 9%nat ->
  available_moves g <> [] ->
  exists m a' s' g',
    choose_action a g player s = Ret (m, a', s') /\
    make_move g m None = Ret (true, g') /\
    board g !! Z.to_nat m = Some EMPTY /\
    board g' = <[Z.to_nat m := current_player g]> (board g).
Proof.
  intros Hlen Hne.
  destruct (proj2 (choose_action_spec a g player s) Hne) as [m [s' [Hm Hc]]].
  eexists m, _, s', (after_move g (Z.to_nat m) (mark_of g None)).
  split; [exact Hc |]. split; [now apply make_move_available |].
  rewrite after_move_board. split; [| reflexivity].
  apply available_moves_In in Hm. destruct Hm as [n [-> Hn]]. now rewrite Nat2Z.id.
Qed.

(** X18: the exploration branch only draws. It returns the available
    move at the index the generator gives and the agent exactly as it
    was: no value is looked up and no entry is made. *)
Theorem exploration_leaves_agent (a : SimpleAIAgent) (g : TicTacToeGame)
    (player : string) (s : R) (m : Z) (a' : SimpleAIAgent) (s' : R) :
  Qltb (fst (random s)) (epsilon a) = true ->
  choose_action a g player s = Ret (m, a', s') ->
  a' = a /\
  available_moves g !! fst (randbelow (length (available_moves g)) (snd (random s)))
    = Some m /\
  s' = snd (randbelow (length (available_moves g)) (snd (random s))).
Proof.
  intros Hu Hc. unfold choose_action in Hc.
  destruct (random s) as [u s1]. simpl in Hu. simpl snd. rewrite Hu in Hc.
  destruct (choice (available_moves g) s1) as [[x s2] | |] eqn:Hchoice;
    try discriminate.
  cbn [bind] in Hc. inversion Hc; subst.
  destruct (choice_index _ _ _ _ Hchoice) as [Hidx Hs]. auto.
Qed.

End Selection.

(** X17 on the fresh board with the example generator. *)
Lemma chosen_move_is_accepted_witness :
  exists m a' s' g',
    choose_action (Agent.init (1 # 10)) Game.init "X" 0%nat = Ret (m, a', s') /\
    make_move Game.init m None = Ret (true, g') /\
    board Game.init !! Z.to_nat m = Some EMPTY /\
    board g' = <[Z.to_nat m := current_player Game.init]> (board Game.init).
Proof.
  apply (chosen_move_is_accepted (Agent.init (1 # 10)) Game.init "X" 0%nat).
  - reflexivity.
  - discriminate.
Defined.

(** X18 with the example generator: at seed 0 the draw 0 is below epsilon
    1/2, and the move is the one at the index drawn next, 7, although the
    table prefers the centre. *)
Lemma exploration_leaves_agent_witness :
  let a := mkAgent (1 # 2) {[ "    X    " := 1%Q ]} ∅ in
  exists s', choose_action a Game.init "X" 0%nat = Ret (7, a, s').
Proof.
  cbv zeta.
  destruct (proj2 (choose_action_spec (mkAgent (1 # 2) {[ "    X    " := 1%Q ]} ∅)
                     Game.init "X" 0%nat) ltac:(discriminate)) as [m [s' [_ Hc]]].
  pose proof (fun Hu => exploration_leaves_agent _ _ _ _ _ _ _ Hu Hc) as He.
  specialize (He eq_refl). destruct He as [Ha [Hidx _]].
  vm_compute in Hidx. inversion Hidx; subst m.
  exists s'. rewrite Hc. reflexivity.
Defined.
